(** * SentinelScore: a shallow embedding of [src/main.cpp]

    The program reads a CSV file of radar contacts, scores every contact with
    a fixed weighted sum, sorts the contacts by descending score and prints a
    table with an engagement suggestion per contact.

    Modelling conventions.
    - [std::string] is [string]; [std::vector] is [list] ([push_back] appends
      at the end).
    - A finite [double] is the real number it denotes.  Every arithmetic
      operation of the source returns the rounding [rnd] of its exact result
      and every decimal literal denotes the rounding of its value; the
      rounding and [std::log10] are the two fields of a [Platform].  What is
      proved for every platform that rounds as binary64 does
      ([Conforming]) holds in particular for exact arithmetic ([exact], where
      nothing is rounded).  NaN and the infinities are not modelled.
    - Module [F64] evaluates the same arithmetic on the kernel's binary64
      numbers, for concrete runs.
    - [std::stod] is a library function; it is a parameter [stod] of the
      ingest code, returning [None] where [std::stod] throws.
    - [std::cerr] and [std::cout] are lists of emitted lines, in order.
    - The file system is a partial map from paths to file contents. *)

From Stdlib Require Import String Ascii List Bool Arith ZArith Lia.
From Stdlib Require Import Reals Lra.
From Stdlib Require Floats DecimalString.
From Stdlib Require Import Sorted Permutation.
Import ListNotations.

Open Scope string_scope.
Open Scope list_scope.

(* ================================================================== *)
(** * Domain model *)

Inductive IFF : Type := Friend | Foe | Unknown.

Record Contact : Type := mkContact {
  id          : string;  (* track ID or callsign *)
  iff         : IFF;
  range_km    : R;
  closing_mps : R;
  altitude_m  : R;
  rcs_m2      : R
}.

(* ================================================================== *)
(** * Utilities *)

Module Str.

(** The characters of [" \t\r\n"]. *)
Definition is_ws (c : ascii) : bool :=
  (c =? " ")%char || (c =? "009")%char || (c =? "013")%char || (c =? "010")%char.

(** [s.find_first_not_of(" \t\r\n")]; [None] is [npos]. *)
Fixpoint find_first_not_of (s : string) : option nat :=
  match s with
  | EmptyString => None
  | String c s' =>
      if is_ws c then option_map S (find_first_not_of s') else Some 0
  end.

(** [s.find_last_not_of(" \t\r\n")]; [None] is [npos]. *)
Fixpoint find_last_not_of (s : string) : option nat :=
  match s with
  | EmptyString => None
  | String c s' =>
      match find_last_not_of s' with
      | Some i => Some (S i)
      | None => if is_ws c then None else Some 0
      end
  end.

(** [trim]: the source returns [""] when no non-blank character exists and
    [s.substr(b, e - b + 1)] otherwise.  When [b] exists so does [e]
    (lemma [find_last_defined]); that branch of the match is dead. *)
Definition trim (s : string) : string :=
  match find_first_not_of s with
  | None => ""
  | Some b =>
      match find_last_not_of s with
      | Some e => substring b (e - b + 1) s
      | None => ""
      end
  end.

(** [std::toupper] in the "C" locale: only ['a'..'z'] change. *)
Definition toupper (c : ascii) : ascii :=
  let n := nat_of_ascii c in
  if (97 <=? n)%nat && (n <=? 122)%nat then ascii_of_nat (n - 32) else c.

(** [std::tolower] in the "C" locale (used to state case-insensitivity). *)
Definition tolower (c : ascii) : ascii :=
  let n := nat_of_ascii c in
  if (65 <=? n)%nat && (n <=? 90)%nat then ascii_of_nat (n + 32) else c.

Fixpoint map (f : ascii -> ascii) (s : string) : string :=
  match s with
  | EmptyString => EmptyString
  | String c s' => String (f c) (map f s')
  end.

(** [s[0] == c] on a non-empty string. *)
Definition starts_with (c : ascii) (s : string) : bool :=
  match s with
  | EmptyString => false
  | String c0 _ => (c0 =? c)%char
  end.

(** The tokens [while (std::getline(ss, tok, delim))] yields on a stream
    holding [s]: a token ends at each [delim]; the characters after the
    last [delim] form a final token only when there are any. *)
Fixpoint getlines (delim : ascii) (s : string) : list string :=
  match s with
  | EmptyString => []
  | String c s' =>
      if (c =? delim)%char then "" :: getlines delim s'
      else match getlines delim s' with
           | [] => [String c ""]
           | tok :: toks => String c tok :: toks
           end
  end.

End Str.

(** [parseIFF]: upper-case the token, then compare with the known spellings. *)
Definition parseIFF (token : string) : option IFF :=
  let t := Str.map Str.toupper token in
  if (t =? "FRIEND") || (t =? "F") then Some Friend
  else if (t =? "FOE") || (t =? "HOSTILE") || (t =? "H") then Some Foe
  else if (t =? "UNKNOWN") || (t =? "U") then Some Unknown
  else None.

Definition iffToStr (i : IFF) : string :=
  match i with
  | Friend => "FRIEND"
  | Foe => "FOE"
  | Unknown => "UNKNOWN"
  end.

(* ================================================================== *)
(** * CSV ingest *)

(** The state of the [while] loop of [loadCSV]: the vector [out], the flag
    [maybeHeader], and the lines written to [std::cerr] so far. *)
Record Ingest : Type := mkIngest {
  out         : list Contact;
  maybeHeader : bool;
  cerr        : list string
}.

Inductive exception : Type :=
| runtime_error (what : string).

Definition what (e : exception) : string :=
  match e with runtime_error m => m end.

Definition LF : ascii := "010"%char.

Section Ingest.

(** [std::stod]: [Some x] when it returns [x], [None] when it throws
    ([std::invalid_argument] or [std::out_of_range]). *)
Variable stod : string -> option R.

(** Safe [stod] with default. *)
Definition toDouble (s : string) (def : R) : R :=
  match stod s with
  | Some x => x
  | None => def
  end.

(** [cols] of a trimmed line: split on [','], each token trimmed. *)
Definition split_cols (line : string) : list string :=
  List.map Str.trim (Str.getlines "," line).

(** The [looksHeader] test of the source. *)
Definition looksHeader (cols : list string) : bool :=
  match parseIFF (nth 1 cols "") with
  | None => true
  | Some _ => (nth 2 cols "" =? "range_km") || (nth 3 cols "" =? "closing_mps")
  end.

(** Lines 92-111: the part of the loop body after the header check. *)
Definition parse_row (line : string) (cols : list string) (st : Ingest) : Ingest :=
  if (length cols <? 6)%nat then
    mkIngest (out st) (maybeHeader st)
             (cerr st ++ [("Skipping malformed row: " ++ line)%string])
  else
    match parseIFF (nth 1 cols "") with
    | None =>
        mkIngest (out st) (maybeHeader st)
                 (cerr st ++ [("Skipping row with invalid IFF: " ++ line)%string])
    | Some i =>
        let c := mkContact (nth 0 cols "") i
                           (toDouble (nth 2 cols "") 1e9%R)
                           (toDouble (nth 3 cols "") 0%R)
                           (toDouble (nth 4 cols "") 0%R)
                           (toDouble (nth 5 cols "") 1%R) in
        mkIngest (out st ++ [c]) (maybeHeader st) (cerr st)
    end.

Definition clear_header (st : Ingest) : Ingest :=
  mkIngest (out st) false (cerr st).

(** One iteration of the [while] loop on the raw line [raw]. *)
Definition loop_body (st : Ingest) (raw : string) : Ingest :=
  let line := Str.trim raw in
  if line =? "" then st                          (* continue *)
  else if Str.starts_with "#" line then st       (* comment: continue *)
  else
    let cols := split_cols line in
    if maybeHeader st then
      if (6 <=? length cols)%nat then
        if looksHeader cols then clear_header st (* header: continue *)
        else parse_row line cols (clear_header st)
      else parse_row line cols (clear_header st)
    else parse_row line cols st.

Definition ingest_init : Ingest := mkIngest [] true [].

(** The whole loop over the lines of the stream. *)
Definition ingest_lines (lines : list string) : Ingest :=
  fold_left loop_body lines ingest_init.

(** [loadCSV]: throws when the file cannot be opened; otherwise returns
    the contacts, together with what the loop wrote to [std::cerr]. *)
Definition loadCSV (fs : string -> option string) (path : string)
  : exception + (list Contact * list string) :=
  match fs path with
  | None => inl (runtime_error ("Failed to open CSV: " ++ path)%string)
  | Some content =>
      let st := ingest_lines (Str.getlines LF content) in
      inr (out st, cerr st)
  end.

End Ingest.


(* ================================================================== *)
(** * The arithmetic of [double] *)

Open Scope R_scope.

(** [rnd x] is the [double] nearest to the real [x]; [std_log10] is the
    [std::log10] of the C library. *)
Class Platform : Type := mkPlatform {
  rnd       : R -> R;
  std_log10 : R -> R
}.

(** The decimal logarithm of the reals. *)
Definition Rlog10 (x : R) : R := ln x / ln 10.

(** Exact arithmetic: nothing is rounded. *)
Definition exact : Platform := mkPlatform (fun x => x) Rlog10.

Definition Rltb (x y : R) : bool := if Rlt_dec x y then true else false.
Definition Rgtb (x y : R) : bool := Rltb y x.

Section Arithmetic.

Context {P : Platform}.

(** A decimal literal of the source that is no binary64 number.  (The
    literals that are binary64 numbers, such as [60.0] and [0.25], are
    written as themselves.) *)
Definition lit (x : R) : R := rnd x.

Definition fadd (x y : R) : R := rnd (x + y).
Definition fsub (x y : R) : R := rnd (x - y).
Definition fmul (x y : R) : R := rnd (x * y).
Definition fdiv (x y : R) : R := rnd (x / y).

End Arithmetic.

Declare Scope fl_scope.
Delimit Scope fl_scope with fl.
Infix "[+]" := fadd (at level 50, left associativity) : fl_scope.
Infix "[-]" := fsub (at level 50, left associativity) : fl_scope.
Infix "[*]" := fmul (at level 40, left associativity) : fl_scope.
Infix "[/]" := fdiv (at level 40, left associativity) : fl_scope.

Module Std.

(** [std::max(a, b)] is [(a < b) ? b : a]. *)
Definition max (a b : R) : R := if Rltb a b then b else a.

(** [std::min(a, b)] is [(b < a) ? b : a]. *)
Definition min (a b : R) : R := if Rltb b a then b else a.

End Std.

(* ================================================================== *)
(** * Scoring *)

Record Weights : Type := mkWeights {
  w_range_inv   : R;  (* closer = higher risk *)
  w_closing     : R;  (* approaching faster = higher risk *)
  w_rcs         : R;  (* bigger target = higher risk *)
  w_iff_friend  : R;  (* strong penalty for friend *)
  w_iff_unknown : R;  (* mild boost for unknown *)
  w_iff_foe     : R;  (* strong boost for foe *)
  w_alt_low     : R   (* lower altitude slightly more concerning *)
}.

(** Normalize helper: it compares and selects, nothing is rounded. *)
Definition clamp (x lo hi : R) : R := Std.max lo (Std.min hi x).

Section Scoring.

Context {P : Platform}.

Local Open Scope fl_scope.

(** [Weights w{}]: the default member initialisers. *)
Definition default_weights : Weights :=
  mkWeights 60.0 0.25 (lit 0.4) (-40.0) 15.0 30.0 (lit 0.004).

(** The terms of [score], named as the locals of the source. *)
Definition inv_range (c : Contact) : R :=
  if Rgtb (range_km c) (lit 0.05) then 1.0 [/] range_km c else 20.0.

Definition s_range (c : Contact) (w : Weights) : R :=
  w_range_inv w [*] inv_range c.

Definition closing_norm (c : Contact) : R :=
  clamp (closing_mps c [/] 400.0) 0.0 1.0.

Definition s_closing (c : Contact) (w : Weights) : R :=
  w_closing w [*] (closing_norm c [*] 100.0).

Definition rcs_arg (c : Contact) : R := Std.max (lit 0.01) (rcs_m2 c).

Definition rcs_log (c : Contact) : R := std_log10 (rcs_arg c).

Definition s_rcs (c : Contact) (w : Weights) : R :=
  w_rcs w [*] ((rcs_log c [+] 2.0) [*] 25.0).

Definition alt_term (c : Contact) : R :=
  (20000.0 [-] clamp (altitude_m c) 0.0 20000.0) [/] 200.0.

Definition s_alt (c : Contact) (w : Weights) : R :=
  w_alt_low w [*] alt_term c.

Definition s_iff (c : Contact) (w : Weights) : R :=
  match iff c with
  | Friend => w_iff_friend w
  | Unknown => w_iff_unknown w
  | Foe => w_iff_foe w
  end.

Definition score (c : Contact) (w : Weights) : R :=
  s_range c w [+] s_closing c w [+] s_rcs c w [+] s_alt c w [+] s_iff c w.

End Scoring.

(** ** The same function with the domains of its partial operations explicit

    Division is defined for a non-zero divisor and the logarithm for a
    positive argument; [None] marks an operation applied outside its domain.
    [Checked.score] is [score] with every division and logarithm of the
    source replaced by its checked form. *)
Module Checked.

Section Checked.

Context {P : Platform}.

Local Open Scope fl_scope.

Definition div (a b : R) : option R :=
  if Req_dec_T b 0 then None else Some (a [/] b).

Definition log10 (x : R) : option R :=
  if Rltb 0 x then Some (std_log10 x) else None.

Definition bind {A B : Type} (m : option A) (k : A -> option B) : option B :=
  match m with
  | Some a => k a
  | None => None
  end.

Notation "x <- m ;; k" := (bind m (fun x => k))
  (at level 61, m at next level, right associativity).

Definition score (c : Contact) (w : Weights) : option R :=
  inv_range <- (if Rgtb (range_km c) (lit 0.05) then div 1.0 (range_km c)
                else Some 20.0) ;;
  let s_range := w_range_inv w [*] inv_range in
  q <- div (closing_mps c) 400.0 ;;
  let closing_norm := clamp q 0.0 1.0 in
  let s_closing := w_closing w [*] (closing_norm [*] 100.0) in
  rcs_log <- log10 (Std.max (lit 0.01) (rcs_m2 c)) ;;
  let s_rcs := w_rcs w [*] ((rcs_log [+] 2.0) [*] 25.0) in
  alt_term <- div (20000.0 [-] clamp (altitude_m c) 0.0 20000.0) 200.0 ;;
  let s_alt := w_alt_low w [*] alt_term in
  Some (s_range [+] s_closing [+] s_rcs [+] s_alt [+] s_iff c w).

End Checked.

End Checked.

(* ================================================================== *)
(** * Engagement suggestion *)

Definition suggestion (c : Contact) (riskScore : R) : string :=
  match iff c with
  | Friend => "IGNORE (FRIEND)"
  | _ =>
      if Rgtb riskScore 120.0 && Rltb (range_km c) 25.0
         && Rgtb (closing_mps c) 100.0 then "INTERCEPT"
      else if Rgtb riskScore 80.0 && Rltb (range_km c) 50.0
      then "ELEVATED MONITOR"
      else "MONITOR"
  end.

(* ================================================================== *)
(** * Ranking *)

(** The comparator passed to [std::sort]: [a.second > b.second]. *)
Definition by_score_desc (a b : Contact * R) : bool := Rgtb (snd a) (snd b).

(** [std::sort(first, last, comp)].  The standard fixes the result up to the
    order of equivalent elements, not the algorithm; the model is an
    insertion sort (what libstdc++ runs on short ranges): each element in
    turn is put into the sorted prefix, in front of the first element that
    [comp] orders after it. *)
Section Sort.

Context {A : Type} (comp : A -> A -> bool).

Fixpoint insert (x : A) (sorted : list A) : list A :=
  match sorted with
  | [] => [x]
  | y :: rest => if comp x y then x :: y :: rest else y :: insert x rest
  end.

Definition sort (l : list A) : list A :=
  fold_left (fun acc x => insert x acc) l [].

End Sort.

(** Lines 216-224 of [main]: score every contact, then sort. *)
Definition rank_pairs (ranked : list (Contact * R)) : list (Contact * R) :=
  sort by_score_desc ranked.

Definition score_all {P : Platform} (w : Weights) (contacts : list Contact)
  : list (Contact * R) :=
  List.map (fun c => (c, score c w)) contacts.

(* ================================================================== *)
(** * Output and main *)

(** A line of [std::cout].  The fixed-width formatting is not modelled: a
    table row is kept as the values it prints. *)
Inductive OutLine : Type :=
| TableHeader
| TableRule
| TableRow (rank : Z) (c : Contact) (s : R) (sugg : string).

Fixpoint print_rows (rank : Z) (ranked : list (Contact * R)) : list OutLine :=
  match ranked with
  | [] => []
  | (c, s) :: rest => TableRow rank c s (suggestion c s) :: print_rows (rank + 1) rest
  end.

Definition printTable (ranked : list (Contact * R)) : list OutLine :=
  TableHeader :: TableRule :: print_rows 1 ranked.

(** What a run leaves behind: the exit code and the two output streams. *)
Record Run : Type := mkRun {
  exit_code : Z;
  cout      : list OutLine;
  run_cerr  : list string
}.

Definition csvPath (argv : list string) : string :=
  match argv with
  | _ :: p :: _ => p
  | _ => "data/contacts.csv"
  end.

Section Main.

Context {P : Platform}.
Variable stod : string -> option R.
Variable fs : string -> option string.

(** The [try] block of [main]: an exception, or the finished run. *)
Definition main_try (argv : list string) : exception + Run :=
  match loadCSV stod fs (csvPath argv) with
  | inl e => inl e
  | inr (contacts, diags) =>
      match contacts with
      | [] =>
          inr (mkRun 1 []
                 (diags ++ [("No contacts loaded from " ++ csvPath argv)%string]))
      | _ :: _ =>
          let ranked := rank_pairs (score_all default_weights contacts) in
          inr (mkRun 0 (printTable ranked) diags)
      end
  end.

(** [main]: the [catch] clause turns an exception into exit code 2. *)
Definition main (argv : list string) : Run :=
  match main_try argv with
  | inr r => r
  | inl e => mkRun 2 [] [("ERROR: " ++ what e)%string]
  end.

End Main.

(* ================================================================== *)
(** * The same arithmetic on binary64 numbers

    [score] and its terms once more, on the kernel's binary64 floating-point
    numbers, whose operations round as the hardware does.  [std::log10] is
    no operation of these numbers; it stays a parameter. *)
Module F64.

Import Floats.
Local Open Scope float_scope.
#[local] Set Warnings "-inexact-float".

Record Contact : Type := mkContact {
  id          : string;
  iff         : IFF;
  range_km    : float;
  closing_mps : float;
  altitude_m  : float;
  rcs_m2      : float
}.

Record Weights : Type := mkWeights {
  w_range_inv   : float;
  w_closing     : float;
  w_rcs         : float;
  w_iff_friend  : float;
  w_iff_unknown : float;
  w_iff_foe     : float;
  w_alt_low     : float
}.

Definition default_weights : Weights :=
  mkWeights 60.0 0.25 0.4 (-40.0) 15.0 30.0 0.004.

Definition max (a b : float) : float := if a <? b then b else a.

Definition min (a b : float) : float := if b <? a then b else a.

Definition clamp (x lo hi : float) : float := max lo (min hi x).

Definition inv_range (c : Contact) : float :=
  if 0.05 <? range_km c then 1.0 / range_km c else 20.0.

Definition s_range (c : Contact) (w : Weights) : float :=
  w_range_inv w * inv_range c.

Definition closing_norm (c : Contact) : float :=
  clamp (closing_mps c / 400.0) 0.0 1.0.

Definition s_closing (c : Contact) (w : Weights) : float :=
  w_closing w * (closing_norm c * 100.0).

Definition alt_term (c : Contact) : float :=
  (20000.0 - clamp (altitude_m c) 0.0 20000.0) / 200.0.

Definition s_alt (c : Contact) (w : Weights) : float :=
  w_alt_low w * alt_term c.

Definition s_iff (c : Contact) (w : Weights) : float :=
  match iff c with
  | Friend => w_iff_friend w
  | Unknown => w_iff_unknown w
  | Foe => w_iff_foe w
  end.

Section Log.

Variable log10 : float -> float.

Definition rcs_log (c : Contact) : float := log10 (max 0.01 (rcs_m2 c)).

Definition s_rcs (c : Contact) (w : Weights) : float :=
  w_rcs w * ((rcs_log c + 2.0) * 25.0).

Definition score (c : Contact) (w : Weights) : float :=
  s_range c w + s_closing c w + s_rcs c w + s_alt c w + s_iff c w.

End Log.

(** Sample contacts. *)
Definition probe (r v a x : float) : Contact := mkContact "T" Unknown r v a x.

Definition far_friend : Contact := mkContact "F" Friend 1e17 0.0 20000.0 0.01.

Definition contact_B2 : Contact := mkContact "B2" Foe 10.0 150.0 500.0 20.0.

(** The exact value of a positive finite binary64 number [x], as a fraction
    [num / den] of integers. *)
Definition exact_value (x : float) : option (Z * Z) :=
  match Prim2SF x with
  | S754_finite false m e =>
      Some (if (0 <=? e)%Z then (Z.pos m * 2 ^ e, 1)%Z
            else (Z.pos m, 2 ^ (- e))%Z)
  | _ => None
  end.

(** [num / den <= x], decided on the exact value of [x]. *)
Definition at_least (x : float) (num den : Z) : bool :=
  match exact_value x with
  | Some (n, d) => (num * d <=? n * den)%Z
  | None => false
  end.

End F64.

(* ================================================================== *)
(** * Vocabulary of the statements *)

(** What the statements assume of the platform: [rnd] rounds as binary64
    does, and [std_log10] is a reasonable logarithm.
    - Rounding is monotone.
    - The integers up to [2^53] are binary64 numbers: they round to
      themselves.
    - In the normal range the relative rounding error is at most [2^-53].
    - The literals [0.05] and [0.01] are rounded upwards (the binary64
      numbers nearest to them are the larger neighbours; see
      [F64Facts.literals_round_up]).
    - [std::log10] is monotone on the positive numbers, is not below [-2] at
      the literal [0.01], and is within [1e-12] of the logarithm. *)
Class Conforming (P : Platform) : Prop := {
  rnd_monotone : forall x y, x <= y -> rnd x <= rnd y;
  rnd_integer :
    forall z : Z, (Z.abs z <= 2 ^ 53)%Z -> rnd (IZR z) = IZR z;
  rnd_error :
    forall x, 1e-300 <= Rabs x <= 1e300 ->
              Rabs (rnd x - x) <= Rabs x / 2 ^ 53;
  lit_0_05_up : 0.05 <= lit 0.05;
  lit_0_01_up : 0.01 <= lit 0.01;
  log10_monotone :
    forall x y, 0 < x -> x <= y -> std_log10 x <= std_log10 y;
  log10_at_0_01 : -2 <= std_log10 (lit 0.01);
  log10_error :
    forall x, 1e-300 <= x <= 1e300 ->
              Rabs (std_log10 x - Rlog10 x) <= 1e-12
}.

(** The default weights in exact arithmetic. *)
Definition exact_weights : Weights := default_weights (P := exact).

(** A contact with one field replaced, all other fields fixed. *)
Definition with_range (c : Contact) (r : R) : Contact :=
  mkContact (id c) (iff c) r (closing_mps c) (altitude_m c) (rcs_m2 c).

Definition with_closing (c : Contact) (v : R) : Contact :=
  mkContact (id c) (iff c) (range_km c) v (altitude_m c) (rcs_m2 c).

Definition with_altitude (c : Contact) (a : R) : Contact :=
  mkContact (id c) (iff c) (range_km c) (closing_mps c) a (rcs_m2 c).

Definition with_rcs (c : Contact) (x : R) : Contact :=
  mkContact (id c) (iff c) (range_km c) (closing_mps c) (altitude_m c) x.

(** The order of a ranked table: no entry scores below a later one. *)
Definition score_ge (a b : Contact * R) : Prop := snd a >= snd b.

(** A raw line the loop ignores before looking at its columns: blank after
    trimming, or a comment. *)
Definition skipped (raw : string) : bool :=
  (Str.trim raw =? "")%string || Str.starts_with "#" (Str.trim raw).

(** The columns of a raw line, as the loop body computes them. *)
Definition cols_of (raw : string) : list string := split_cols (Str.trim raw).

(** The loop body without any header check: what the spec calls the
    handling of a data row. *)
Definition data_step (stod : string -> option R) (st : Ingest) (raw : string)
  : Ingest :=
  if skipped raw then st
  else parse_row stod (Str.trim raw) (cols_of raw) st.

(** The two column names the header check looks for. *)
Definition header_named (cols : list string) : bool :=
  (nth 2 cols "" =? "range_km")%string || (nth 3 cols "" =? "closing_mps")%string.

(** The contact the loop builds from the columns of a row whose
    classification token reads as [i]. *)
Definition contact_of (stod : string -> option R) (cols : list string) (i : IFF)
  : Contact :=
  mkContact (nth 0 cols "") i
            (toDouble stod (nth 2 cols "") 1e9)
            (toDouble stod (nth 3 cols "") 0)
            (toDouble stod (nth 4 cols "") 0)
            (toDouble stod (nth 5 cols "") 1).

(** Where a contact of [out] gets its classification from: the
    classification column of some input line, as [parseIFF] reads it. *)
Definition classified_from (lines : list string) (c : Contact) : Prop :=
  exists raw, In raw lines /\ parseIFF (nth 1 (cols_of raw) "") = Some (iff c).

(** An instance of [stod] for concrete runs: a non-empty string of decimal
    digits denotes its value, every other string is rejected.  ([std::stod]
    accepts more spellings; the statements below hold for every [stod].) *)
Module StodDigits.

Definition digit (c : ascii) : option Z :=
  let n := nat_of_ascii c in
  if (48 <=? n)%nat && (n <=? 57)%nat then Some (Z.of_nat (n - 48)) else None.

Fixpoint value (acc : Z) (s : string) : option Z :=
  match s with
  | EmptyString => Some acc
  | String c s' =>
      match digit c with
      | Some d => value (10 * acc + d) s'
      | None => None
      end
  end.

Definition stod (s : string) : option R :=
  match s with
  | EmptyString => None
  | _ => option_map IZR (value 0 s)
  end.

End StodDigits.

(** The contact of the row [B2,Foe,10,150,500,20]. *)
Definition contact_B2 : Contact := mkContact "B2" Foe 10 150 500 20.

(* ================================================================== *)
(** * The text of the table *)

Module Fmt.

(** [std::string(n, c)]. *)
Fixpoint fill (n : nat) (c : ascii) : string :=
  match n with
  | O => ""
  | S n' => String c (fill n' c)
  end.

(** [os << std::left << std::setw(n) << s]: the text [s], then blanks up to
    the width [n]; a text of [n] or more characters is written as it is.
    (The width applies to one insertion only.) *)
Definition setw (n : nat) (s : string) : string :=
  (s ++ fill (n - String.length s) " ")%string.

(** A chain [os << std::setw(n1) << s1 << std::setw(n2) << s2 << ...]. *)
Fixpoint chain (cells : list (nat * string)) : string :=
  match cells with
  | [] => ""
  | (n, s) :: rest => (setw n s ++ chain rest)%string
  end.

(** [os << i] for an [int]: its decimal digits. *)
Definition int (i : Z) : string :=
  DecimalString.NilZero.string_of_int (Z.to_int i).

(** The characters a cell takes on the line. *)
Definition taken (cell : nat * string) : nat :=
  Nat.max (fst cell) (String.length (snd cell)).

(** The characters a chain of cells takes. *)
Definition span (cells : list (nat * string)) : nat :=
  list_sum (List.map taken cells).

End Fmt.

(** The heading of the table and the rule under it, without the final
    newline. *)
Definition heading_cells : list (nat * string) :=
  [(10, "RANK"); (12, "ID"); (10, "IFF"); (12, "RANGE(km)");
   (14, "CLOSING(m/s)"); (12, "ALT(m)"); (10, "RCS(m^2)"); (12, "SCORE")]%nat.

Definition heading_text : string :=
  (Fmt.chain heading_cells ++ "SUGGESTION")%string.

Definition rule_text : string :=
  Fmt.fill (10 + 12 + 10 + 12 + 14 + 12 + 10 + 12 + 11)%nat "-".

Section Render.

(** [os << std::fixed << std::setprecision(p) << x] for a [double] [x]: the
    digits are the C library's; a parameter. *)
Variable fixed : nat -> R -> string.

Definition row_cells (rank : Z) (c : Contact) (s : R) : list (nat * string) :=
  [(10, Fmt.int rank); (12, id c); (10, iffToStr (iff c));
   (12, fixed 1 (range_km c)); (14, fixed 0 (closing_mps c));
   (12, fixed 0 (altitude_m c)); (10, fixed 2 (rcs_m2 c)); (12, fixed 1 s)]%nat.

Definition row_text (rank : Z) (c : Contact) (s : R) (sugg : string) : string :=
  (Fmt.chain (row_cells rank c s) ++ sugg)%string.

(** The characters of a line of [std::cout], without the final newline. *)
Definition render (l : OutLine) : string :=
  match l with
  | TableHeader => heading_text
  | TableRule => rule_text
  | TableRow rank c s sugg => row_text rank c s sugg
  end.

End Render.

(* ================================================================== *)
(** * Further vocabulary of the statements *)

Module Txt.

(** Every character is one of [" \t\r\n"]. *)
Fixpoint blank (s : string) : bool :=
  match s with
  | EmptyString => true
  | String c s' => Str.is_ws c && blank s'
  end.

(** The first and the last character, if any. *)
Definition front (s : string) : option ascii := get 0 s.

Fixpoint back (s : string) : option ascii :=
  match s with
  | EmptyString => None
  | String c EmptyString => Some c
  | String _ s' => back s'
  end.

Definition is_ws_opt (c : option ascii) : bool :=
  match c with
  | Some c => Str.is_ws c
  | None => false
  end.

(** Neither the first nor the last character is a blank (the empty string
    has none). *)
Definition tight (s : string) : bool :=
  negb (is_ws_opt (front s)) && negb (is_ws_opt (back s)).

(** How often the character [d] occurs. *)
Fixpoint count (d : ascii) (s : string) : nat :=
  match s with
  | EmptyString => O
  | String c s' => ((if (c =? d)%char then 1 else 0) + count d s')%nat
  end.

(** The text ends with the character [d]. *)
Definition ends_with (d : ascii) (s : string) : bool :=
  match back s with
  | Some c => (c =? d)%char
  | None => false
  end.

(** The tokens written one after the other with [d] between them. *)
Fixpoint join (d : ascii) (toks : list string) : string :=
  match toks with
  | [] => ""
  | [t] => t
  | t :: rest => (t ++ String d (join d rest))%string
  end.

End Txt.

(** The lines the loop looks at: neither blank nor a comment. *)
Definition candidates (lines : list string) : list string :=
  filter (fun raw => negb (skipped raw)) lines.

(** A contact with its classification replaced. *)
Definition with_iff (c : Contact) (i : IFF) : Contact :=
  mkContact (id c) i (range_km c) (closing_mps c) (altitude_m c) (rcs_m2 c).

(** The suggestions, from the least to the most urgent. *)
Definition urgency (sugg : string) : nat :=
  if (sugg =? "INTERCEPT")%string then 3
  else if (sugg =? "ELEVATED MONITOR")%string then 2
  else if (sugg =? "MONITOR")%string then 1
  else 0.


(** Where a contact of [out] comes from: a line with 6 or more columns and a
    classification token, whose columns give the contact. *)
Definition from_row (stod : string -> option R) (lines : list string)
    (c : Contact) : Prop :=
  exists raw i,
    In raw lines /\ skipped raw = false
    /\ (6 <= length (cols_of raw))%nat
    /\ parseIFF (nth 1 (cols_of raw) "") = Some i
    /\ c = contact_of stod (cols_of raw) i.

(** Where a diagnostic comes from: a line with fewer than 6 columns, or with
    6 or more columns and no classification token; the diagnostic names the
    line, trimmed. *)
Definition reported (lines : list string) (d : string) : Prop :=
  exists raw,
    In raw lines /\ skipped raw = false
    /\ (((length (cols_of raw) < 6)%nat
         /\ d = ("Skipping malformed row: " ++ Str.trim raw)%string)
        \/ ((6 <= length (cols_of raw))%nat
            /\ parseIFF (nth 1 (cols_of raw) "") = None
            /\ d = ("Skipping row with invalid IFF: " ++ Str.trim raw)%string)).

(* ================================================================== *)
(** * Basic facts about the helpers *)

Lemma find_last_defined (s : string) (b : nat) :
  Str.find_first_not_of s = Some b ->
  exists e, Str.find_last_not_of s = Some e /\ (b <= e)%nat.
Proof.
  revert b. induction s as [| c s IH]; intros b H; cbn in *.
  - discriminate.
  - destruct (Str.is_ws c) eqn:W.
    + destruct (Str.find_first_not_of s) as [b' |]; [| discriminate].
      injection H as <-.
      destruct (IH b' eq_refl) as (e & -> & Hle).
      exists (S e). split; [reflexivity | lia].
    + injection H as <-.
      destruct (Str.find_last_not_of s) as [e |].
      * exists (S e). split; [reflexivity | lia].
      * exists 0%nat. split; [reflexivity | lia].
Qed.

Lemma Rltb_spec (x y : R) : reflect (x < y) (Rltb x y).
Proof. unfold Rltb. destruct (Rlt_dec x y); constructor; assumption. Qed.

Lemma Rgtb_spec (x y : R) : reflect (x > y) (Rgtb x y).
Proof. unfold Rgtb. apply Rltb_spec. Qed.

Lemma Rltb_true (x y : R) : x < y -> Rltb x y = true.
Proof. intro H. destruct (Rltb_spec x y); [reflexivity | contradiction]. Qed.

Lemma Rltb_false (x y : R) : y <= x -> Rltb x y = false.
Proof. intro H. destruct (Rltb_spec x y); [lra | reflexivity]. Qed.

Lemma Rgtb_true (x y : R) : x > y -> Rgtb x y = true.
Proof. intro H. apply Rltb_true. exact H. Qed.

Lemma Rgtb_false (x y : R) : x <= y -> Rgtb x y = false.
Proof. intro H. apply Rltb_false. exact H. Qed.

(** Case analysis on every comparison in the goal, innermost first. *)
Ltac cmp_cases :=
  repeat match goal with
         | |- context [Rltb ?a ?b] =>
             lazymatch a with
             | context [Rltb _ _] => fail
             | _ => lazymatch b with
                    | context [Rltb _ _] => fail
                    | _ => destruct (Rltb_spec a b)
                    end
             end
         end.

Lemma max_lower (a b : R) : a <= Std.max a b.
Proof. unfold Std.max. cmp_cases; lra. Qed.

Lemma max_right (a b : R) : a <= b -> Std.max a b = b.
Proof. intro H. unfold Std.max. cmp_cases; lra. Qed.

Lemma max_monotone (a b b' : R) : b <= b' -> Std.max a b <= Std.max a b'.
Proof. intro H. unfold Std.max. cmp_cases; lra. Qed.

Lemma clamp_bounds (x lo hi : R) : lo <= hi -> lo <= clamp x lo hi <= hi.
Proof. intro H. unfold clamp, Std.max, Std.min. cmp_cases; lra. Qed.

Lemma clamp_inside (x lo hi : R) : lo <= x <= hi -> clamp x lo hi = x.
Proof. intro H. unfold clamp, Std.max, Std.min. cmp_cases; lra. Qed.

Lemma clamp_monotone (x y lo hi : R) : x <= y -> clamp x lo hi <= clamp y lo hi.
Proof. intro H. unfold clamp, Std.max, Std.min. cmp_cases; lra. Qed.

Lemma ln10_pos : 0 < ln 10.
Proof. rewrite <- ln_1. apply ln_increasing; lra. Qed.

Lemma Rlog10_increasing (x y : R) : 0 < x -> x < y -> Rlog10 x < Rlog10 y.
Proof.
  intros Hx Hxy. unfold Rlog10.
  apply Rmult_lt_compat_r.
  - apply Rinv_0_lt_compat, ln10_pos.
  - apply ln_increasing; assumption.
Qed.

Lemma Rlog10_monotone (x y : R) : 0 < x -> x <= y -> Rlog10 x <= Rlog10 y.
Proof.
  intros Hx [Hlt | ->]; [left; apply Rlog10_increasing; assumption | right; reflexivity].
Qed.

Lemma Rlog10_hundredth : Rlog10 0.01 = -2.
Proof.
  unfold Rlog10.
  replace 0.01 with (/ (10 * 10)) by lra.
  rewrite ln_Rinv by lra.
  rewrite ln_mult by lra.
  pose proof ln10_pos. field. lra.
Qed.

Lemma Rlog10_hundred : Rlog10 100 = 2.
Proof.
  unfold Rlog10. replace 100 with (10 * 10) by lra.
  rewrite ln_mult by lra. pose proof ln10_pos. field. lra.
Qed.

(** Exact arithmetic rounds as the statements require. *)
Lemma exact_conforming : Conforming exact.
Proof.
  constructor; unfold lit; cbn [rnd std_log10 exact]; intros.
  - assumption.
  - reflexivity.
  - replace (x - x) with 0 by lra. rewrite Rabs_R0.
    pose proof (Rabs_pos x). lra.
  - lra.
  - lra.
  - apply Rlog10_monotone; assumption.
  - rewrite Rlog10_hundredth. lra.
  - replace (Rlog10 x - Rlog10 x) with 0 by lra. rewrite Rabs_R0. lra.
Qed.

(* ================================================================== *)
(** * Rounding *)

Section RoundingFacts.

Context {P : Platform} {HP : Conforming P}.

Lemma rnd_0 : rnd 0 = 0.
Proof. apply (rnd_integer 0). vm_compute. discriminate. Qed.

Lemma rnd_nonneg (x : R) : 0 <= x -> 0 <= rnd x.
Proof. intro H. rewrite <- rnd_0. apply rnd_monotone. exact H. Qed.

Lemma rnd_le_integer (x : R) (z : Z) :
  (Z.abs z <= 2 ^ 53)%Z -> x <= IZR z -> rnd x <= IZR z.
Proof. intros Hz H. rewrite <- (rnd_integer z Hz). apply rnd_monotone. exact H. Qed.

Lemma rnd_ge_integer (x : R) (z : Z) :
  (Z.abs z <= 2 ^ 53)%Z -> IZR z <= x -> IZR z <= rnd x.
Proof. intros Hz H. rewrite <- (rnd_integer z Hz). apply rnd_monotone. exact H. Qed.

Lemma lit_nonneg (x : R) : 0 <= x -> 0 <= lit x.
Proof. apply rnd_nonneg. Qed.

Lemma fmul_nonneg (x y : R) : 0 <= x -> 0 <= y -> 0 <= (x [*] y)%fl.
Proof. intros Hx Hy. apply rnd_nonneg. nra. Qed.

Lemma fmul_monotone (w x y : R) : 0 <= w -> x <= y -> (w [*] x)%fl <= (w [*] y)%fl.
Proof. intros Hw H. apply rnd_monotone. nra. Qed.

Lemma fmul_monotone_l (w x y : R) : 0 <= w -> x <= y -> (x [*] w)%fl <= (y [*] w)%fl.
Proof. intros Hw H. apply rnd_monotone. nra. Qed.

Lemma fadd_monotone_l (x y z : R) : x <= y -> (x [+] z)%fl <= (y [+] z)%fl.
Proof. intro H. apply rnd_monotone. lra. Qed.

Lemma fadd_monotone_r (x y z : R) : x <= y -> (z [+] x)%fl <= (z [+] y)%fl.
Proof. intro H. apply rnd_monotone. lra. Qed.

Lemma fdiv_monotone (x y d : R) : 0 < d -> x <= y -> (x [/] d)%fl <= (y [/] d)%fl.
Proof.
  intros Hd H. apply rnd_monotone. unfold Rdiv.
  apply Rmult_le_compat_r; [left; apply Rinv_0_lt_compat; exact Hd | exact H].
Qed.

Lemma lit_0_05_pos : 0 < lit 0.05.
Proof. pose proof lit_0_05_up. lra. Qed.

Lemma lit_0_01_pos : 0 < lit 0.01.
Proof. pose proof lit_0_01_up. lra. Qed.

End RoundingFacts.

(** Goals [|z| <= 2^53] on integer constants. *)
Ltac small_integer := vm_compute; discriminate.

(* ================================================================== *)
(** * The suggestion classifier *)

(** C3. Friend dominance: a contact classified Friend gets the suggestion
    IGNORE (FRIEND) whatever its score, range and closing speed are; the
    Friend test comes before every numeric threshold, so it also wins where
    the thresholds of INTERCEPT hold. *)
Theorem friend_dominance (c : Contact) (riskScore : R) :
  iff c = Friend -> suggestion c riskScore = "IGNORE (FRIEND)".
Proof. intro H. unfold suggestion. rewrite H. reflexivity. Qed.

Lemma friend_dominance_witness :
  suggestion (mkContact "A1" Friend 10 150 1000 5) 500 = "IGNORE (FRIEND)".
Proof. apply friend_dominance. reflexivity. Defined.

Lemma suggestion_not_friend (c : Contact) (s : R) :
  iff c <> Friend ->
  suggestion c s =
    if Rgtb s 120 && Rltb (range_km c) 25 && Rgtb (closing_mps c) 100
    then "INTERCEPT"
    else if Rgtb s 80 && Rltb (range_km c) 50 then "ELEVATED MONITOR"
    else "MONITOR".
Proof.
  intro H. unfold suggestion.
  replace 120.0 with 120 by lra. replace 25.0 with 25 by lra.
  replace 100.0 with 100 by lra. replace 80.0 with 80 by lra.
  replace 50.0 with 50 by lra.
  destruct (iff c); [contradiction | reflexivity | reflexivity].
Qed.

(* ================================================================== *)
(** * The scoring function *)

Section ScoringFacts.

Context {P : Platform} {HP : Conforming P}.

Lemma checked_div_defined (a b : R) :
  b <> 0 -> Checked.div a b = Some (a [/] b)%fl.
Proof.
  intro H. unfold Checked.div. destruct (Req_dec_T b 0); [contradiction | reflexivity].
Qed.

Lemma checked_log10_defined (x : R) :
  0 < x -> Checked.log10 x = Some (std_log10 x).
Proof. intro H. unfold Checked.log10. rewrite Rltb_true by exact H. reflexivity. Qed.

Lemma rcs_arg_lower (c : Contact) : 0.01 <= rcs_arg c.
Proof.
  unfold rcs_arg. pose proof (max_lower (lit 0.01) (rcs_m2 c)).
  pose proof lit_0_01_up. lra.
Qed.

Lemma rcs_log_lower (c : Contact) : -2 <= rcs_log c.
Proof.
  unfold rcs_log, rcs_arg.
  apply Rle_trans with (std_log10 (lit 0.01)); [apply log10_at_0_01 |].
  apply log10_monotone; [apply lit_0_01_pos | apply max_lower].
Qed.

Lemma inv_range_cases (c : Contact) :
  (range_km c > lit 0.05 /\ inv_range c = (1 [/] range_km c)%fl) \/
  (range_km c <= lit 0.05 /\ inv_range c = 20).
Proof.
  unfold inv_range. destruct (Rgtb_spec (range_km c) (lit 0.05)).
  - left. split; [assumption |]. replace 1.0 with 1 by lra. reflexivity.
  - right. split; lra.
Qed.

Lemma inv_range_bounds (c : Contact) : 0 <= inv_range c <= 20.
Proof.
  destruct (inv_range_cases c) as [[H E] | [H E]]; rewrite E; [| lra].
  pose proof lit_0_05_up as L.
  assert (0 < / range_km c) by (apply Rinv_0_lt_compat; lra).
  assert (/ range_km c < / 0.05) by (apply Rinv_lt_contravar; nra).
  unfold fdiv. split.
  - apply rnd_nonneg. lra.
  - apply (rnd_le_integer _ 20); [small_integer | lra].
Qed.

Lemma checked_score_total (c : Contact) (w : Weights) :
  Checked.score c w = Some (score c w).
Proof.
  pose proof lit_0_05_pos as L5. pose proof lit_0_01_pos as L1.
  assert (Hlog : Checked.log10 (Std.max (lit 0.01) (rcs_m2 c))
                 = Some (std_log10 (Std.max (lit 0.01) (rcs_m2 c)))).
  { apply checked_log10_defined.
    pose proof (max_lower (lit 0.01) (rcs_m2 c)). lra. }
  unfold Checked.score, score, s_range, s_closing, s_rcs, s_alt,
    alt_term, closing_norm, rcs_log, rcs_arg, inv_range.
  rewrite Hlog, !(checked_div_defined _ 400.0), !(checked_div_defined _ 200.0) by lra.
  destruct (Rgtb_spec (range_km c) (lit 0.05)) as [Hr | Hr].
  - rewrite checked_div_defined by lra. reflexivity.
  - reflexivity.
Qed.

(** C9. On every platform that rounds as binary64 does, [score] is total
    and its guarded operations stay in their domains: evaluated with checked
    division and logarithm it never fails and gives [score]; the
    inverse-range factor is the quotient [1 / range_km] exactly when
    [range_km > 0.05] and the constant 20 otherwise (in particular for a zero
    or negative range), so it never exceeds 20; and the argument of the
    logarithm is at least 0.01, whatever [rcs_m2] is. *)
Theorem score_total_and_guarded (c : Contact) (w : Weights) :
  Checked.score c w = Some (score c w)
  /\ (range_km c > lit 0.05 -> inv_range c = (1 [/] range_km c)%fl)
  /\ (range_km c <= lit 0.05 -> inv_range c = 20)
  /\ inv_range c <= 20
  /\ 0.01 <= rcs_arg c
  /\ rcs_log c = std_log10 (rcs_arg c).
Proof.
  split; [apply checked_score_total |].
  split; [intro H; destruct (inv_range_cases c) as [[_ E] | [H' _]]; [exact E | lra] |].
  split; [intro H; destruct (inv_range_cases c) as [[H' _] | [_ E]]; [lra | exact E] |].
  split; [apply inv_range_bounds |].
  split; [apply rcs_arg_lower | reflexivity].
Qed.

(** ** Signs of the terms under the default weights *)

Lemma s_range_nonneg (c : Contact) : 0 <= s_range c default_weights.
Proof.
  unfold s_range. cbn [w_range_inv default_weights].
  apply fmul_nonneg; [lra | apply inv_range_bounds].
Qed.

Lemma closing_norm_bounds (c : Contact) : 0 <= closing_norm c <= 1.
Proof.
  unfold closing_norm.
  pose proof (clamp_bounds (closing_mps c [/] 400.0)%fl 0.0 1.0). lra.
Qed.

Lemma s_closing_nonneg (c : Contact) : 0 <= s_closing c default_weights.
Proof.
  unfold s_closing. cbn [w_closing default_weights].
  pose proof (closing_norm_bounds c).
  apply fmul_nonneg; [lra |]. apply fmul_nonneg; lra.
Qed.

Lemma s_rcs_nonneg (c : Contact) : 0 <= s_rcs c default_weights.
Proof.
  unfold s_rcs. cbn [w_rcs default_weights].
  pose proof (rcs_log_lower c).
  apply fmul_nonneg; [apply lit_nonneg; lra |].
  apply fmul_nonneg; [| lra]. apply rnd_nonneg. lra.
Qed.

Lemma alt_term_nonneg (c : Contact) : 0 <= alt_term c.
Proof.
  unfold alt_term.
  pose proof (clamp_bounds (altitude_m c) 0.0 20000.0).
  unfold fdiv. apply rnd_nonneg.
  assert (0 <= (20000.0 [-] clamp (altitude_m c) 0.0 20000.0)%fl)
    by (apply rnd_nonneg; lra).
  lra.
Qed.

Lemma s_alt_nonneg (c : Contact) : 0 <= s_alt c default_weights.
Proof.
  unfold s_alt. cbn [w_alt_low default_weights].
  apply fmul_nonneg; [apply lit_nonneg; lra | apply alt_term_nonneg].
Qed.

Lemma s_iff_lower (c : Contact) : -40 <= s_iff c default_weights.
Proof. unfold s_iff. destruct (iff c); cbn; lra. Qed.

Lemma fadd_nonneg (x y : R) : 0 <= x -> 0 <= y -> 0 <= (x [+] y)%fl.
Proof. intros Hx Hy. apply rnd_nonneg. lra. Qed.

Lemma score_at_least_minus_40 (c : Contact) : -40 <= score c default_weights.
Proof.
  pose proof (s_range_nonneg c) as H1. pose proof (s_closing_nonneg c) as H2.
  pose proof (s_rcs_nonneg c) as H3. pose proof (s_alt_nonneg c) as H4.
  pose proof (s_iff_lower c) as H5.
  unfold score.
  assert (0 <= (s_range c default_weights [+] s_closing c default_weights
                [+] s_rcs c default_weights [+] s_alt c default_weights)%fl)
    by (repeat apply fadd_nonneg; assumption).
  unfold fadd at 1. apply (rnd_ge_integer _ (-40)); [small_integer | lra].
Qed.

(** ** Monotonicity of the four physical terms *)

Lemma inv_range_antitone (c : Contact) (r1 r2 : R) :
  r1 <= r2 -> inv_range (with_range c r2) <= inv_range (with_range c r1).
Proof.
  intro H.
  destruct (inv_range_cases (with_range c r1)) as [[H1 E1] | [H1 E1]];
    destruct (inv_range_cases (with_range c r2)) as [[H2 E2] | [H2 E2]];
    cbn [range_km with_range] in *; rewrite E1, E2.
  - pose proof lit_0_05_pos. unfold fdiv. apply rnd_monotone.
    unfold Rdiv. rewrite !Rmult_1_l. apply Rinv_le_contravar; lra.
  - lra.
  - rewrite <- E2. apply inv_range_bounds.
  - lra.
Qed.

Lemma s_range_antitone (c : Contact) (r1 r2 : R) :
  r1 <= r2 ->
  s_range (with_range c r2) default_weights
  <= s_range (with_range c r1) default_weights.
Proof.
  intro H. unfold s_range. cbn [w_range_inv default_weights].
  apply fmul_monotone; [lra | apply inv_range_antitone; exact H].
Qed.

Lemma s_closing_monotone (c : Contact) (v1 v2 : R) :
  v1 <= v2 ->
  s_closing (with_closing c v1) default_weights
  <= s_closing (with_closing c v2) default_weights.
Proof.
  intro H. unfold s_closing, closing_norm. cbn [w_closing default_weights closing_mps with_closing].
  apply fmul_monotone; [lra |]. apply fmul_monotone_l; [lra |].
  apply clamp_monotone. apply fdiv_monotone; lra.
Qed.

Lemma s_rcs_monotone (c : Contact) (x1 x2 : R) :
  x1 <= x2 ->
  s_rcs (with_rcs c x1) default_weights <= s_rcs (with_rcs c x2) default_weights.
Proof.
  intro H. unfold s_rcs, rcs_log, rcs_arg. cbn [w_rcs default_weights rcs_m2 with_rcs].
  apply fmul_monotone; [apply lit_nonneg; lra |].
  apply fmul_monotone_l; [lra |]. apply fadd_monotone_l.
  apply log10_monotone.
  - pose proof (max_lower (lit 0.01) x1). pose proof lit_0_01_pos. lra.
  - apply max_monotone. exact H.
Qed.

Lemma s_alt_antitone (c : Contact) (a1 a2 : R) :
  a1 <= a2 ->
  s_alt (with_altitude c a2) default_weights
  <= s_alt (with_altitude c a1) default_weights.
Proof.
  intro H. unfold s_alt, alt_term. cbn [w_alt_low default_weights altitude_m with_altitude].
  apply fmul_monotone; [apply lit_nonneg; lra |].
  apply fdiv_monotone; [lra |]. unfold fsub. apply rnd_monotone.
  pose proof (clamp_monotone a1 a2 0.0 20000.0 H). lra.
Qed.

(** The score moves with each term. *)
Lemma score_monotone_terms (c c' : Contact) (w : Weights) :
  s_range c w <= s_range c' w -> s_closing c w <= s_closing c' w ->
  s_rcs c w <= s_rcs c' w -> s_alt c w <= s_alt c' w ->
  s_iff c w = s_iff c' w ->
  score c w <= score c' w.
Proof.
  intros H1 H2 H3 H4 H5. unfold score. rewrite H5.
  apply fadd_monotone_l.
  apply Rle_trans with (s_range c' w [+] s_closing c' w [+] s_rcs c' w [+] s_alt c w)%fl;
    [apply fadd_monotone_l | apply fadd_monotone_r; exact H4].
  apply Rle_trans with (s_range c' w [+] s_closing c' w [+] s_rcs c w)%fl;
    [apply fadd_monotone_l | apply fadd_monotone_r; exact H3].
  apply Rle_trans with (s_range c' w [+] s_closing c w)%fl;
    [apply fadd_monotone_l; exact H1 | apply fadd_monotone_r; exact H2].
Qed.

Lemma terms_never_decrease (c : Contact) :
  (forall r1 r2, r1 <= r2 ->
     s_range (with_range c r2) default_weights
       <= s_range (with_range c r1) default_weights
     /\ score (with_range c r2) default_weights
       <= score (with_range c r1) default_weights)
  /\ (forall v1 v2, v1 <= v2 ->
     s_closing (with_closing c v1) default_weights
       <= s_closing (with_closing c v2) default_weights
     /\ score (with_closing c v1) default_weights
       <= score (with_closing c v2) default_weights)
  /\ (forall x1 x2, x1 <= x2 ->
     s_rcs (with_rcs c x1) default_weights
       <= s_rcs (with_rcs c x2) default_weights
     /\ score (with_rcs c x1) default_weights
       <= score (with_rcs c x2) default_weights)
  /\ (forall a1 a2, a1 <= a2 ->
     s_alt (with_altitude c a2) default_weights
       <= s_alt (with_altitude c a1) default_weights
     /\ score (with_altitude c a2) default_weights
       <= score (with_altitude c a1) default_weights).
Proof.
  split; [| split; [| split]]; intros x y H.
  - pose proof (s_range_antitone c x y H) as M. split; [exact M |].
    apply score_monotone_terms; first [exact M | right; reflexivity | reflexivity].
  - pose proof (s_closing_monotone c x y H) as M. split; [exact M |].
    apply score_monotone_terms; first [exact M | right; reflexivity | reflexivity].
  - pose proof (s_rcs_monotone c x y H) as M. split; [exact M |].
    apply score_monotone_terms; first [exact M | right; reflexivity | reflexivity].
  - pose proof (s_alt_antitone c x y H) as M. split; [exact M |].
    apply score_monotone_terms; first [exact M | right; reflexivity | reflexivity].
Qed.

End ScoringFacts.

Lemma score_total_and_guarded_witness :
  Checked.score (P := exact) (mkContact "Z" Unknown 0 0 0 0) exact_weights
    = Some (score (P := exact) (mkContact "Z" Unknown 0 0 0 0) exact_weights)
  /\ inv_range (P := exact) (mkContact "Z" Unknown 0 0 0 0) = 20
  /\ inv_range (P := exact) (mkContact "N" Foe (-3) 0 0 0) = 20
  /\ inv_range (P := exact) (mkContact "B2" Foe 10 150 500 20) = 1 / 10.
Proof.
  pose proof exact_conforming as HP.
  split; [apply (score_total_and_guarded (mkContact "Z" Unknown 0 0 0 0) exact_weights) |].
  split; [apply (score_total_and_guarded (mkContact "Z" Unknown 0 0 0 0) exact_weights);
          cbn; lra |].
  split; [apply (score_total_and_guarded (mkContact "N" Foe (-3) 0 0 0) exact_weights);
          cbn; lra |].
  apply (score_total_and_guarded (HP := HP) (mkContact "B2" Foe 10 150 500 20) exact_weights).
  cbn. lra.
Defined.


(** ** Exact arithmetic: the changes are strict *)

Ltac unfold_exact :=
  unfold exact_weights, score, s_range, s_closing, s_rcs, s_alt, s_iff,
    inv_range, closing_norm, rcs_log, rcs_arg, alt_term,
    fadd, fsub, fmul, fdiv, lit;
  cbn.

Lemma exact_score_with_range (c : Contact) (r : R) (w : Weights) :
  score (P := exact) (with_range c r) w - s_range (P := exact) (with_range c r) w
  = score (P := exact) c w - s_range (P := exact) c w.
Proof. unfold_exact. lra. Qed.

Lemma exact_score_with_closing (c : Contact) (v : R) (w : Weights) :
  score (P := exact) (with_closing c v) w
  - s_closing (P := exact) (with_closing c v) w
  = score (P := exact) c w - s_closing (P := exact) c w.
Proof. unfold_exact. lra. Qed.

Lemma exact_score_with_rcs (c : Contact) (x : R) (w : Weights) :
  score (P := exact) (with_rcs c x) w - s_rcs (P := exact) (with_rcs c x) w
  = score (P := exact) c w - s_rcs (P := exact) c w.
Proof. unfold_exact. lra. Qed.

Lemma exact_score_with_altitude (c : Contact) (a : R) (w : Weights) :
  score (P := exact) (with_altitude c a) w
  - s_alt (P := exact) (with_altitude c a) w
  = score (P := exact) c w - s_alt (P := exact) c w.
Proof. unfold_exact. lra. Qed.

Lemma exact_s_range_decreasing (c : Contact) (r1 r2 : R) :
  0.05 < r1 -> r1 < r2 ->
  s_range (P := exact) (with_range c r2) exact_weights
  < s_range (P := exact) (with_range c r1) exact_weights.
Proof.
  intros H1 H12. unfold_exact. rewrite !Rgtb_true by lra.
  assert (/ r2 < / r1) by (apply Rinv_lt_contravar; nra).
  lra.
Qed.

Lemma exact_s_closing_increasing (c : Contact) (v1 v2 : R) :
  0 <= v1 -> v1 < v2 -> v2 <= 400 ->
  s_closing (P := exact) (with_closing c v1) exact_weights
  < s_closing (P := exact) (with_closing c v2) exact_weights.
Proof.
  intros H1 H12 H2. unfold_exact. rewrite !clamp_inside by lra. lra.
Qed.

Lemma exact_s_rcs_increasing (c : Contact) (x1 x2 : R) :
  0.01 <= x1 -> x1 < x2 -> x2 <= 100 ->
  s_rcs (P := exact) (with_rcs c x1) exact_weights
  < s_rcs (P := exact) (with_rcs c x2) exact_weights.
Proof.
  intros H1 H12 H2. unfold_exact. rewrite !max_right by lra.
  assert (Rlog10 x1 < Rlog10 x2) by (apply Rlog10_increasing; lra).
  lra.
Qed.

Lemma exact_s_alt_decreasing (c : Contact) (a1 a2 : R) :
  0 <= a1 -> a1 < a2 -> a2 <= 20000 ->
  s_alt (P := exact) (with_altitude c a2) exact_weights
  < s_alt (P := exact) (with_altitude c a1) exact_weights.
Proof.
  intros H1 H12 H2. unfold_exact. rewrite !clamp_inside by lra. lra.
Qed.

Lemma exact_s_range_pos (c : Contact) :
  0 < s_range (P := exact) c exact_weights.
Proof.
  unfold_exact. destruct (Rgtb_spec (range_km c) 0.05) as [H | H]; [| lra].
  assert (0 < / range_km c) by (apply Rinv_0_lt_compat; lra). lra.
Qed.

Lemma exact_score_above_minus_40 (c : Contact) :
  -40 < score (P := exact) c exact_weights.
Proof.
  pose proof exact_conforming as HP.
  pose proof (exact_s_range_pos c).
  pose proof (s_closing_nonneg (P := exact) c).
  pose proof (s_rcs_nonneg (P := exact) c).
  pose proof (s_alt_nonneg (P := exact) c).
  pose proof (s_iff_lower (P := exact) c).
  unfold exact_weights in *. unfold score, fadd. cbn [rnd exact]. lra.
Qed.

(** C5, amended. Monotonicity under the default weights, all other fields
    fixed.  On every platform that rounds as binary64 does, a smaller range
    never gives a smaller inverse-range term, a larger closing speed never a
    smaller closing-speed term, a larger RCS never a smaller RCS term, a
    lower altitude never a smaller altitude term, and the total score moves
    with the term.  In exact arithmetic the changes are strict: for a range
    above 0.05 km, a closing speed within [0, 400], an RCS within
    [0.01, 100] and an altitude within [0, 20000]. *)
Theorem terms_monotone :
  (forall (P : Platform), Conforming P -> forall c : Contact,
     (forall r1 r2, r1 <= r2 ->
        s_range (with_range c r2) default_weights
          <= s_range (with_range c r1) default_weights
        /\ score (with_range c r2) default_weights
          <= score (with_range c r1) default_weights)
     /\ (forall v1 v2, v1 <= v2 ->
        s_closing (with_closing c v1) default_weights
          <= s_closing (with_closing c v2) default_weights
        /\ score (with_closing c v1) default_weights
          <= score (with_closing c v2) default_weights)
     /\ (forall x1 x2, x1 <= x2 ->
        s_rcs (with_rcs c x1) default_weights
          <= s_rcs (with_rcs c x2) default_weights
        /\ score (with_rcs c x1) default_weights
          <= score (with_rcs c x2) default_weights)
     /\ (forall a1 a2, a1 <= a2 ->
        s_alt (with_altitude c a2) default_weights
          <= s_alt (with_altitude c a1) default_weights
        /\ score (with_altitude c a2) default_weights
          <= score (with_altitude c a1) default_weights))
  /\ (forall c : Contact,
     (forall r1 r2, 0.05 < r1 -> r1 < r2 ->
        s_range (P := exact) (with_range c r2) exact_weights
          < s_range (P := exact) (with_range c r1) exact_weights
        /\ score (P := exact) (with_range c r2) exact_weights
          < score (P := exact) (with_range c r1) exact_weights)
     /\ (forall v1 v2, 0 <= v1 -> v1 < v2 -> v2 <= 400 ->
        s_closing (P := exact) (with_closing c v1) exact_weights
          < s_closing (P := exact) (with_closing c v2) exact_weights
        /\ score (P := exact) (with_closing c v1) exact_weights
          < score (P := exact) (with_closing c v2) exact_weights)
     /\ (forall x1 x2, 0.01 <= x1 -> x1 < x2 -> x2 <= 100 ->
        s_rcs (P := exact) (with_rcs c x1) exact_weights
          < s_rcs (P := exact) (with_rcs c x2) exact_weights
        /\ score (P := exact) (with_rcs c x1) exact_weights
          < score (P := exact) (with_rcs c x2) exact_weights)
     /\ (forall a1 a2, 0 <= a1 -> a1 < a2 -> a2 <= 20000 ->
        s_alt (P := exact) (with_altitude c a2) exact_weights
          < s_alt (P := exact) (with_altitude c a1) exact_weights
        /\ score (P := exact) (with_altitude c a2) exact_weights
          < score (P := exact) (with_altitude c a1) exact_weights)).
Proof.
  split.
  { intros P HP c. apply terms_never_decrease. }
  intro c. repeat split; intros.
  - apply exact_s_range_decreasing; assumption.
  - pose proof (exact_s_range_decreasing c r1 r2 H H0).
    pose proof (exact_score_with_range c r1 exact_weights).
    pose proof (exact_score_with_range c r2 exact_weights). lra.
  - apply exact_s_closing_increasing; assumption.
  - pose proof (exact_s_closing_increasing c v1 v2 H H0 H1).
    pose proof (exact_score_with_closing c v1 exact_weights).
    pose proof (exact_score_with_closing c v2 exact_weights). lra.
  - apply exact_s_rcs_increasing; assumption.
  - pose proof (exact_s_rcs_increasing c x1 x2 H H0 H1).
    pose proof (exact_score_with_rcs c x1 exact_weights).
    pose proof (exact_score_with_rcs c x2 exact_weights). lra.
  - apply exact_s_alt_decreasing; assumption.
  - pose proof (exact_s_alt_decreasing c a1 a2 H H0 H1).
    pose proof (exact_score_with_altitude c a1 exact_weights).
    pose proof (exact_score_with_altitude c a2 exact_weights). lra.
Qed.

Lemma terms_monotone_witness :
  s_range (P := exact) (with_range contact_B2 12) exact_weights
    <= s_range (P := exact) (with_range contact_B2 10) exact_weights
  /\ s_closing (P := exact) (with_closing contact_B2 150) exact_weights
    < s_closing (P := exact) (with_closing contact_B2 400) exact_weights
  /\ s_rcs (P := exact) (with_rcs contact_B2 0.01) exact_weights
    < s_rcs (P := exact) (with_rcs contact_B2 100) exact_weights
  /\ s_alt (P := exact) (with_altitude contact_B2 20000) exact_weights
    < s_alt (P := exact) (with_altitude contact_B2 0) exact_weights.
Proof.
  destruct terms_monotone as [Hle Hlt].
  split; [apply (Hle exact exact_conforming contact_B2); lra |].
  split; [apply (Hlt contact_B2); lra |].
  split; [apply (Hlt contact_B2); lra |].
  apply (Hlt contact_B2); lra.
Defined.

(** C10, amended. Lower bound under the default weights.  On every platform
    that rounds as binary64 does, the inverse-range, closing-speed, RCS and
    altitude terms are all non-negative, the classification term is at least
    -40 and equals -40 for a Friend, and the total score is at least -40.
    In exact arithmetic the total score is strictly greater than -40. *)
Theorem score_lower_bound :
  (forall (P : Platform), Conforming P -> forall c : Contact,
     0 <= s_range c default_weights
     /\ 0 <= s_closing c default_weights
     /\ 0 <= s_rcs c default_weights
     /\ 0 <= s_alt c default_weights
     /\ -40 <= s_iff c default_weights
     /\ (iff c = Friend -> s_iff c default_weights = -40)
     /\ -40 <= score c default_weights)
  /\ (forall c : Contact, -40 < score (P := exact) c exact_weights).
Proof.
  split; [| exact exact_score_above_minus_40].
  intros P HP c.
  split; [apply s_range_nonneg |].
  split; [apply s_closing_nonneg |].
  split; [apply s_rcs_nonneg |].
  split; [apply s_alt_nonneg |].
  split; [apply s_iff_lower |].
  split; [| apply score_at_least_minus_40].
  intro F. unfold s_iff. rewrite F. cbn. lra.
Qed.

Lemma score_lower_bound_witness :
  s_iff (mkContact "A1" Friend 10 50 1000 5) exact_weights = -40
  /\ -40 < score (P := exact) (mkContact "A1" Friend 10 50 1000 5) exact_weights.
Proof.
  destruct score_lower_bound as [Hle Hlt].
  split.
  - apply (Hle exact exact_conforming (mkContact "A1" Friend 10 50 1000 5)).
    reflexivity.
  - apply Hlt.
Defined.

(** ** The worked example [B2,Foe,10,150,500,20] *)

(** [2^196 > 10^59] and [2^93 < 10^28] enclose [log10 2] in
    [(59/196, 28/93)], that is between 0.30102 and 0.30108. *)
Lemma ln2_lower : 59 * ln 10 < 196 * ln 2.
Proof.
  assert (H : ln (10 ^ 59) < ln (2 ^ 196)).
  { apply ln_increasing.
    - apply pow_lt; lra.
    - rewrite !pow_IZR. apply IZR_lt. vm_compute. reflexivity. }
  rewrite !ln_pow in H by lra.
  replace 59 with (INR 59) by (rewrite INR_IZR_INZ; reflexivity).
  replace 196 with (INR 196) by (rewrite INR_IZR_INZ; reflexivity).
  exact H.
Qed.

Lemma ln2_upper : 93 * ln 2 < 28 * ln 10.
Proof.
  assert (H : ln (2 ^ 93) < ln (10 ^ 28)).
  { apply ln_increasing.
    - apply pow_lt; lra.
    - rewrite !pow_IZR. apply IZR_lt. vm_compute. reflexivity. }
  rewrite !ln_pow in H by lra.
  replace 93 with (INR 93) by (rewrite INR_IZR_INZ; reflexivity).
  replace 28 with (INR 28) by (rewrite INR_IZR_INZ; reflexivity).
  exact H.
Qed.

Lemma Rlog10_20_bounds : 1.30102 < Rlog10 20 < 1.30108.
Proof.
  unfold Rlog10.
  replace 20 with (2 * 10) by lra.
  rewrite ln_mult by lra.
  pose proof ln10_pos as P. pose proof ln2_lower as L. pose proof ln2_upper as U.
  replace ((ln 2 + ln 10) / ln 10) with (ln 2 / ln 10 + 1) by (field; lra).
  assert (59 / 196 < ln 2 / ln 10).
  { apply Rmult_lt_reg_r with (ln 10); [exact P |].
    unfold Rdiv at 2. rewrite Rmult_assoc, Rinv_l by lra. lra. }
  assert (ln 2 / ln 10 < 28 / 93).
  { apply Rmult_lt_reg_r with (ln 10); [exact P |].
    unfold Rdiv at 1. rewrite Rmult_assoc, Rinv_l by lra. lra. }
  lra.
Qed.

Lemma Rabs_le_inv (x b : R) : Rabs x <= b -> - b <= x <= b.
Proof. unfold Rabs. destruct (Rcase_abs x); lra. Qed.

Lemma mul_between (a b la ha lb hb : R) :
  0 <= la -> la <= a <= ha -> 0 <= lb -> lb <= b <= hb ->
  la * lb <= a * b <= ha * hb.
Proof. intros. split; apply Rmult_le_compat; lra. Qed.

Section ExampleFacts.

Context {P : Platform} {HP : Conforming P}.

(** A rounded positive number stays within one part in [10^15] of the
    interval its exact value lies in. *)
Lemma rnd_between (x lo hi : R) :
  1e-300 <= lo -> hi <= 1e300 -> lo <= x <= hi ->
  lo * (1 - 1e-15) <= rnd x <= hi * (1 + 1e-15).
Proof.
  intros Hlo Hhi Hx.
  pose proof (rnd_error x) as E.
  rewrite (Rabs_pos_eq x) in E by lra.
  specialize (E ltac:(lra)).
  apply Rabs_le_inv in E.
  assert (x / 2 ^ 53 <= x * 1e-15) by lra.
  split.
  - apply Rle_trans with (x * (1 - 1e-15)); [| lra].
    apply Rmult_le_compat_r; lra.
  - apply Rle_trans with (x * (1 + 1e-15)); [lra |].
    apply Rmult_le_compat_r; lra.
Qed.

(** [enclose x lo hi as H]: from [lo <= x <= hi], the bounds of [rnd x]. *)
Tactic Notation "enclose" constr(x) constr(lo) constr(hi) "as" ident(H) :=
  pose proof (rnd_between x lo hi) as H;
  specialize (H ltac:(lra) ltac:(lra) ltac:(lra)).

Ltac unfold_ops := unfold fadd, fsub, fmul, fdiv, lit in *.

Lemma B2_inv_range :
  0.0999999 <= inv_range contact_B2 <= 0.1000001.
Proof.
  unfold inv_range. cbn [range_km contact_B2]. unfold_ops.
  enclose 0.05 0.05 0.05 as L.
  rewrite Rgtb_true by lra.
  enclose (1.0 / 10) 0.1 0.1 as B.
  lra.
Qed.

Lemma B2_s_range :
  5.99999 <= s_range contact_B2 default_weights <= 6.00001.
Proof.
  pose proof B2_inv_range as I.
  unfold s_range. cbn [w_range_inv default_weights]. unfold_ops.
  enclose (60.0 * inv_range contact_B2) 5.999994 6.000006 as B.
  lra.
Qed.

Lemma B2_s_closing :
  9.37499 <= s_closing contact_B2 default_weights <= 9.37501.
Proof.
  unfold s_closing, closing_norm.
  cbn [w_closing default_weights closing_mps contact_B2]. unfold_ops.
  enclose (150 / 400.0) 0.375 0.375 as Q.
  rewrite clamp_inside by lra.
  enclose (rnd (150 / 400.0) * 100.0) 37.49999 37.50001 as M.
  enclose (0.25 * rnd (rnd (150 / 400.0) * 100.0)) 9.374997 9.375003 as B.
  lra.
Qed.

Lemma B2_rcs_log : 1.30102 <= rcs_log contact_B2 <= 1.30108.
Proof.
  unfold rcs_log, rcs_arg. cbn [rcs_m2 contact_B2]. unfold_ops.
  enclose 0.01 0.01 0.01 as L.
  rewrite max_right by lra.
  pose proof (log10_error 20) as E. specialize (E ltac:(lra)).
  apply Rabs_le_inv in E.
  (* The exact logarithm lies strictly inside, with room for [1e-12]. *)
  assert (B : 1.30102 + 1e-12 <= Rlog10 20 <= 1.30108 - 1e-12).
  { unfold Rlog10.
    pose proof ln10_pos as P10. pose proof ln2_lower as Lo. pose proof ln2_upper as Up.
    replace 20 with (2 * 10) by lra. rewrite ln_mult by lra.
    replace ((ln 2 + ln 10) / ln 10) with (ln 2 / ln 10 + 1) by (field; lra).
    assert (59 / 196 < ln 2 / ln 10).
    { apply Rmult_lt_reg_r with (ln 10); [exact P10 |].
      unfold Rdiv at 2. rewrite Rmult_assoc, Rinv_l by lra. lra. }
    assert (ln 2 / ln 10 < 28 / 93).
    { apply Rmult_lt_reg_r with (ln 10); [exact P10 |].
      unfold Rdiv at 1. rewrite Rmult_assoc, Rinv_l by lra. lra. }
    lra. }
  lra.
Qed.

Lemma B2_s_rcs :
  33.0101 <= s_rcs contact_B2 default_weights <= 33.0109.
Proof.
  pose proof B2_rcs_log as L.
  unfold s_rcs. cbn [w_rcs default_weights]. unfold_ops.
  set (l := rcs_log contact_B2) in *.
  enclose (l + 2.0) 3.30102 3.30108 as A.
  enclose (rnd (l + 2.0) * 25.0) 82.52549 82.52701 as M.
  enclose 0.4 0.4 0.4 as W.
  pose proof (mul_between (rnd 0.4) (rnd (rnd (l + 2.0) * 25.0))
                0.3999999 0.4000001 82.52548 82.52702) as X.
  specialize (X ltac:(lra) ltac:(lra) ltac:(lra) ltac:(lra)).
  enclose (rnd 0.4 * rnd (rnd (l + 2.0) * 25.0)) 33.01018 33.01082 as B.
  lra.
Qed.

Lemma B2_s_alt :
  0.38999 <= s_alt contact_B2 default_weights <= 0.39001.
Proof.
  unfold s_alt, alt_term. cbn [w_alt_low default_weights altitude_m contact_B2].
  rewrite clamp_inside by lra. unfold_ops.
  enclose (20000.0 - 500) 19500 19500 as S.
  enclose (rnd (20000.0 - 500) / 200.0) 97.49999 97.50001 as D.
  enclose 0.004 0.004 0.004 as W.
  pose proof (mul_between (rnd 0.004) (rnd (rnd (20000.0 - 500) / 200.0))
                0.003999999 0.004000001 97.49998 97.50002) as X.
  specialize (X ltac:(lra) ltac:(lra) ltac:(lra) ltac:(lra)).
  enclose (rnd 0.004 * rnd (rnd (20000.0 - 500) / 200.0)) 0.389999 0.390001 as B.
  lra.
Qed.

Lemma B2_score_bounds : 78.775 < score contact_B2 default_weights < 78.776.
Proof.
  pose proof B2_s_range as R1. pose proof B2_s_closing as R2.
  pose proof B2_s_rcs as R3. pose proof B2_s_alt as R4.
  assert (R5 : s_iff contact_B2 default_weights = 30) by (cbn; lra).
  unfold score. rewrite R5.
  set (a := s_range contact_B2 default_weights) in *.
  set (b := s_closing contact_B2 default_weights) in *.
  set (c := s_rcs contact_B2 default_weights) in *.
  set (d := s_alt contact_B2 default_weights) in *.
  unfold_ops.
  enclose (a + b) 15.37498 15.37502 as S1.
  enclose (rnd (a + b) + c) 48.38507 48.38593 as S2.
  enclose (rnd (rnd (a + b) + c) + d) 48.77505 48.77595 as S3.
  enclose (rnd (rnd (rnd (a + b) + c) + d) + 30) 78.77504 78.77596 as S4.
  lra.
Qed.

End ExampleFacts.

Lemma B2_row_parsed (stod : string -> option R) :
  stod "10" = Some 10 -> stod "150" = Some 150 ->
  stod "500" = Some 500 -> stod "20" = Some 20 ->
  loop_body stod ingest_init "B2,Foe,10,150,500,20"
  = mkIngest [contact_B2] false [].
Proof.
  intros H10 H150 H500 H20.
  cbv -[IZR Rmult Rplus Rdiv Rinv Q2R].
  rewrite H10, H150, H500, H20. reflexivity.
Qed.

(** C2. End-to-end example: the row [B2,Foe,10,150,500,20] is read as the
    contact B2 (the numeric columns being read by [stod] as 10, 150, 500 and
    20); under the default weights, on every platform that rounds as
    binary64 does, its score lies between 78.775 and 78.776, so it is
    approximately 78.77 and exceeds neither 80 nor 120; the suggestion for
    it is MONITOR, and a run on a file holding just this row prints it as
    rank 1 and exits with code 0. *)
Theorem example_B2 {P : Platform} {HP : Conforming P}
    (stod : string -> option R) (fs : string -> option string)
    (prog path : string) :
  stod "10" = Some 10 -> stod "150" = Some 150 ->
  stod "500" = Some 500 -> stod "20" = Some 20 ->
  fs path = Some (String.append "B2,Foe,10,150,500,20" (String LF "")) ->
  out (ingest_lines stod ["B2,Foe,10,150,500,20"%string]) = [contact_B2]
  /\ 78.775 < score contact_B2 default_weights < 78.776
  /\ ~ score contact_B2 default_weights > 80
  /\ ~ score contact_B2 default_weights > 120
  /\ suggestion contact_B2 (score contact_B2 default_weights) = "MONITOR"
  /\ main stod fs [prog; path]
     = mkRun 0 [TableHeader; TableRule;
                TableRow 1 contact_B2 (score contact_B2 default_weights) "MONITOR"]
             [].
Proof.
  intros H10 H150 H500 H20 Hfs.
  pose proof B2_score_bounds as B.
  assert (Hs : suggestion contact_B2 (score contact_B2 default_weights) = "MONITOR").
  { rewrite suggestion_not_friend by discriminate.
    rewrite (Rgtb_false _ 120) by lra. rewrite (Rgtb_false _ 80) by lra.
    reflexivity. }
  assert (Hrow : ingest_lines stod ["B2,Foe,10,150,500,20"%string]
                 = mkIngest [contact_B2] false []).
  { unfold ingest_lines. cbn [fold_left].
    apply B2_row_parsed; assumption. }
  split; [rewrite Hrow; reflexivity |].
  split; [exact B |].
  split; [lra |].
  split; [lra |].
  split; [exact Hs |].
  unfold main, main_try, loadCSV. cbn [csvPath]. rewrite Hfs.
  change (Str.getlines LF (String.append "B2,Foe,10,150,500,20" (String LF "")))
    with ["B2,Foe,10,150,500,20"%string].
  rewrite Hrow. cbn [out cerr].
  unfold rank_pairs, score_all, sort, printTable. cbn [List.map fold_left insert print_rows].
  rewrite Hs. reflexivity.
Qed.

Lemma example_B2_witness :
  suggestion contact_B2 (score (P := exact) contact_B2 exact_weights) = "MONITOR"
  /\ exit_code
       (main (P := exact) StodDigits.stod
             (fun _ => Some (String.append "B2,Foe,10,150,500,20" (String LF "")))
             ["sentinel"%string; "contacts.csv"%string]) = 0%Z.
Proof.
  pose proof (example_B2 (HP := exact_conforming) StodDigits.stod
                (fun _ => Some (String.append "B2,Foe,10,150,500,20" (String LF "")))
                "sentinel" "contacts.csv"
                eq_refl eq_refl eq_refl eq_refl eq_refl) as H.
  destruct H as (_ & _ & _ & _ & Hs & Hm).
  split; [exact Hs | rewrite Hm; reflexivity].
Defined.

(* ================================================================== *)
(** * The ranker *)

Section SortFacts.

Context {A : Type} (comp : A -> A -> bool) (ord : A -> A -> Prop).

Hypothesis comp_true : forall x y, comp x y = true -> ord x y.
Hypothesis comp_false : forall x y, comp x y = false -> ord y x.
Hypothesis ord_trans : forall x y z, ord x y -> ord y z -> ord x z.

Lemma insert_perm (x : A) (l : list A) : Permutation (x :: l) (insert comp x l).
Proof.
  induction l as [| y rest IH]; cbn.
  - apply Permutation_refl.
  - destruct (comp x y).
    + apply Permutation_refl.
    + apply perm_trans with (y :: x :: rest).
      * apply perm_swap.
      * apply perm_skip. exact IH.
Qed.

Lemma fold_insert_perm (l acc : list A) :
  Permutation (l ++ acc) (fold_left (fun acc x => insert comp x acc) l acc).
Proof.
  revert acc. induction l as [| x l IH]; intro acc; cbn.
  - apply Permutation_refl.
  - apply perm_trans with (l ++ insert comp x acc).
    + apply perm_trans with (l ++ x :: acc).
      * apply Permutation_middle.
      * apply Permutation_app_head. apply insert_perm.
    + apply IH.
Qed.

Lemma sort_perm (l : list A) : Permutation l (sort comp l).
Proof.
  unfold sort. rewrite <- (app_nil_r l) at 1. apply fold_insert_perm.
Qed.

Lemma insert_sorted (x : A) (l : list A) :
  StronglySorted ord l -> StronglySorted ord (insert comp x l).
Proof.
  induction 1 as [| y rest Hs IH Hy]; cbn.
  - constructor; constructor.
  - destruct (comp x y) eqn:E.
    + constructor.
      * constructor; assumption.
      * constructor.
        -- apply comp_true. exact E.
        -- eapply Forall_impl; [| exact Hy].
           intros z Hz. eapply ord_trans; [apply comp_true; exact E | exact Hz].
    + constructor.
      * exact IH.
      * apply (Permutation_Forall (insert_perm x rest)).
        constructor; [apply comp_false; exact E | exact Hy].
Qed.

Lemma fold_insert_sorted (l acc : list A) :
  StronglySorted ord acc ->
  StronglySorted ord (fold_left (fun acc x => insert comp x acc) l acc).
Proof.
  revert acc. induction l as [| x l IH]; intros acc H; cbn.
  - exact H.
  - apply IH. apply insert_sorted. exact H.
Qed.

Lemma sort_sorted (l : list A) : StronglySorted ord (sort comp l).
Proof. apply fold_insert_sorted. constructor. Qed.

End SortFacts.

Lemma rank_pairs_sorted (ranked : list (Contact * R)) :
  StronglySorted score_ge (rank_pairs ranked).
Proof.
  unfold rank_pairs. apply sort_sorted; unfold by_score_desc, score_ge.
  - intros x y H. destruct (Rgtb_spec (snd x) (snd y)); [lra | discriminate].
  - intros x y H. destruct (Rgtb_spec (snd x) (snd y)); [discriminate | lra].
  - intros x y z H1 H2. lra.
Qed.

Lemma rank_pairs_perm (ranked : list (Contact * R)) :
  Permutation ranked (rank_pairs ranked).
Proof. apply sort_perm. Qed.

(** C4. Ranker postcondition: for every non-empty list of (contact, score)
    pairs the ranked list is sorted non-ascending by score (every entry
    scores at least as much as every later one), has the length of the
    input, and is a rearrangement of it: no pair is dropped or duplicated. *)
Theorem ranker_sorted_same_length (ranked : list (Contact * R)) :
  ranked <> [] ->
  StronglySorted score_ge (rank_pairs ranked)
  /\ length (rank_pairs ranked) = length ranked
  /\ Permutation ranked (rank_pairs ranked).
Proof.
  intros _. split; [apply rank_pairs_sorted |].
  split; [symmetry; apply Permutation_length, rank_pairs_perm |].
  apply rank_pairs_perm.
Qed.

Lemma ranker_sorted_same_length_witness :
  StronglySorted score_ge
    (rank_pairs [(contact_B2, 1); (with_range contact_B2 3, 7); (contact_B2, 4)])
  /\ length
       (rank_pairs [(contact_B2, 1); (with_range contact_B2 3, 7); (contact_B2, 4)])
     = 3%nat.
Proof.
  pose proof (ranker_sorted_same_length
                [(contact_B2, 1); (with_range contact_B2 3, 7); (contact_B2, 4)])
    as H.
  destruct H as (Hs & Hl & _); [discriminate |].
  split; [exact Hs | exact Hl].
Defined.

Lemma rank_pairs_example :
  rank_pairs [(contact_B2, 1); (with_range contact_B2 3, 7); (contact_B2, 4)]
  = [(with_range contact_B2 3, 7); (contact_B2, 4); (contact_B2, 1)].
Proof.
  unfold rank_pairs, sort, by_score_desc. cbn [fold_left insert snd].
  rewrite (Rgtb_true 7 1) by lra. cbn [insert snd].
  rewrite (Rgtb_false 4 7) by lra. rewrite (Rgtb_true 4 1) by lra.
  reflexivity.
Qed.

(* ================================================================== *)
(** * The record parser *)

Section IngestFacts.

Variable stod : string -> option R.

Lemma loop_body_skipped (st : Ingest) (raw : string) :
  skipped raw = true -> loop_body stod st raw = st.
Proof.
  unfold skipped, loop_body. intro H.
  destruct (Str.trim raw =? "")%string; [reflexivity |].
  cbn in H. rewrite H. reflexivity.
Qed.

(** The loop body on a line that is neither blank nor a comment. *)
Lemma loop_body_candidate (st : Ingest) (raw : string) :
  skipped raw = false ->
  loop_body stod st raw =
    if maybeHeader st then
      if (6 <=? length (cols_of raw))%nat && looksHeader (cols_of raw)
      then clear_header st
      else parse_row stod (Str.trim raw) (cols_of raw) (clear_header st)
    else parse_row stod (Str.trim raw) (cols_of raw) st.
Proof.
  unfold skipped, loop_body, cols_of. intro H.
  apply orb_false_iff in H. destruct H as [H1 H2]. rewrite H1, H2.
  destruct (maybeHeader st); [| reflexivity].
  destruct (6 <=? length (split_cols (Str.trim raw)))%nat; reflexivity.
Qed.

Lemma parse_row_flag (line : string) (cols : list string) (st : Ingest) :
  maybeHeader (parse_row stod line cols st) = maybeHeader st.
Proof.
  unfold parse_row. destruct (length cols <? 6)%nat; [reflexivity |].
  destruct (parseIFF (nth 1 cols "")); reflexivity.
Qed.

(** Once the flag is cleared the loop body is the plain row handling. *)
Lemma loop_body_no_header (st : Ingest) (raw : string) :
  maybeHeader st = false -> loop_body stod st raw = data_step stod st raw.
Proof.
  intro F. unfold data_step. destruct (skipped raw) eqn:S.
  - apply loop_body_skipped. exact S.
  - rewrite loop_body_candidate by exact S. rewrite F. reflexivity.
Qed.

Lemma data_step_flag (st : Ingest) (raw : string) :
  maybeHeader (data_step stod st raw) = maybeHeader st.
Proof.
  unfold data_step. destruct (skipped raw); [reflexivity | apply parse_row_flag].
Qed.

Lemma fold_no_header (lines : list string) (st : Ingest) :
  maybeHeader st = false ->
  fold_left (loop_body stod) lines st = fold_left (data_step stod) lines st.
Proof.
  revert st. induction lines as [| raw lines IH]; intros st F; cbn.
  - reflexivity.
  - rewrite loop_body_no_header by exact F.
    apply IH. rewrite data_step_flag. exact F.
Qed.

Lemma fold_skipped (lines : list string) (st : Ingest) :
  Forall (fun l => skipped l = true) lines ->
  fold_left (loop_body stod) lines st = st.
Proof.
  intro H. revert st. induction H as [| raw lines Hs _ IH]; intro st; cbn.
  - reflexivity.
  - rewrite loop_body_skipped by exact Hs. apply IH.
Qed.

(** The flag is cleared by the first candidate line, whatever it holds. *)
Lemma loop_body_clears_flag (st : Ingest) (raw : string) :
  skipped raw = false -> maybeHeader (loop_body stod st raw) = false.
Proof.
  intro S. rewrite loop_body_candidate by exact S.
  destruct (maybeHeader st) eqn:F.
  - destruct ((6 <=? length (cols_of raw))%nat && looksHeader (cols_of raw)).
    + reflexivity.
    + rewrite parse_row_flag. reflexivity.
  - rewrite parse_row_flag. exact F.
Qed.

Lemma parse_row_short (line : string) (cols : list string) (st : Ingest) :
  (length cols < 6)%nat ->
  parse_row stod line cols st
  = mkIngest (out st) (maybeHeader st)
      (cerr st ++ [("Skipping malformed row: " ++ line)%string]).
Proof.
  intro H. unfold parse_row.
  destruct (Nat.ltb_spec (length cols) 6); [reflexivity | lia].
Qed.

Lemma parse_row_bad_iff (line : string) (cols : list string) (st : Ingest) :
  (6 <= length cols)%nat -> parseIFF (nth 1 cols "") = None ->
  parse_row stod line cols st
  = mkIngest (out st) (maybeHeader st)
      (cerr st ++ [("Skipping row with invalid IFF: " ++ line)%string]).
Proof.
  intros H E. unfold parse_row.
  destruct (Nat.ltb_spec (length cols) 6); [lia |]. rewrite E. reflexivity.
Qed.

Lemma parse_row_good (line : string) (cols : list string) (st : Ingest) (i : IFF) :
  (6 <= length cols)%nat -> parseIFF (nth 1 cols "") = Some i ->
  parse_row stod line cols st
  = mkIngest
      (out st ++ [mkContact (nth 0 cols "") i
                    (toDouble stod (nth 2 cols "") 1e9)
                    (toDouble stod (nth 3 cols "") 0)
                    (toDouble stod (nth 4 cols "") 0)
                    (toDouble stod (nth 5 cols "") 1)])
      (maybeHeader st) (cerr st).
Proof.
  intros H E. unfold parse_row.
  destruct (Nat.ltb_spec (length cols) 6); [lia |]. rewrite E. reflexivity.
Qed.

(** The loop after the first candidate line [raw], reached through lines
    that are all blank or comments. *)
Lemma ingest_first_candidate (pre post : list string) (raw : string) :
  Forall (fun l => skipped l = true) pre ->
  skipped raw = false ->
  ingest_lines stod (pre ++ raw :: post) =
    fold_left (data_step stod) post
      (if (6 <=? length (cols_of raw))%nat && looksHeader (cols_of raw)
       then mkIngest [] false []
       else parse_row stod (Str.trim raw) (cols_of raw) (mkIngest [] false [])).
Proof.
  intros Hpre Hraw. unfold ingest_lines.
  rewrite fold_left_app. rewrite (fold_skipped pre) by exact Hpre.
  cbn [fold_left].
  rewrite fold_no_header by (apply loop_body_clears_flag; exact Hraw).
  rewrite loop_body_candidate by exact Hraw. reflexivity.
Qed.

End IngestFacts.

(** C1 as stated fails: a first candidate line with fewer than 6 columns is
    not dropped silently, the loop reports it as a malformed row. *)
Lemma short_first_line_is_reported :
  (length (cols_of "id,iff") < 6)%nat
  /\ ingest_lines StodDigits.stod
       ["# contacts"; "id,iff"; "B2,Foe,10,150,500,20"]%string
     = mkIngest [contact_B2] false ["Skipping malformed row: id,iff"%string].
Proof.
  split.
  - cbv. lia.
  - change ["# contacts"; "id,iff"; "B2,Foe,10,150,500,20"]%string
      with (["# contacts"] ++ "id,iff" :: ["B2,Foe,10,150,500,20"])%list.
    rewrite (ingest_first_candidate StodDigits.stod ["# contacts"%string]
               ["B2,Foe,10,150,500,20"%string] "id,iff")
      by (repeat constructor).
    change (cols_of "id,iff") with ["id"; "iff"]%string.
    cbn [length Nat.leb andb fold_left].
    rewrite parse_row_short by (cbn; lia).
    unfold data_step.
    change (skipped "B2,Foe,10,150,500,20") with false. cbv iota.
    change (cols_of "B2,Foe,10,150,500,20")
      with ["B2"; "Foe"; "10"; "150"; "500"; "20"]%string.
    rewrite (parse_row_good _ _ _ _ Foe) by (cbn; first [lia | reflexivity]).
    reflexivity.
Qed.

(** C1, amended. Header detection happens once, on the first line that is
    neither blank nor a comment: that line is dropped silently, as a header,
    exactly when it has at least 6 columns and its classification column is
    no classification token, or its range column is the string range_km, or
    its closing-speed column is the string closing_mps.  With fewer than 6
    columns it is not taken as a header: it goes through the row handling
    like any other line, which reports it as malformed.  Every later line
    goes through the row handling only; none is header-checked. *)
Theorem header_check_first_candidate_only
    (stod : string -> option R) (pre post : list string) (raw : string) :
  Forall (fun l => skipped l = true) pre ->
  skipped raw = false ->
  ingest_lines stod (pre ++ raw :: post) =
    fold_left (data_step stod) post
      (if (6 <=? length (cols_of raw))%nat && looksHeader (cols_of raw)
       then mkIngest [] false []
       else parse_row stod (Str.trim raw) (cols_of raw) (mkIngest [] false []))
  /\ looksHeader (cols_of raw) =
       match parseIFF (nth 1 (cols_of raw) "") with
       | None => true
       | Some _ => (nth 2 (cols_of raw) "" =? "range_km")%string
                   || (nth 3 (cols_of raw) "" =? "closing_mps")%string
       end
  /\ ((length (cols_of raw) < 6)%nat ->
      ingest_lines stod (pre ++ [raw])
      = mkIngest [] false [("Skipping malformed row: " ++ Str.trim raw)%string]).
Proof.
  intros Hpre Hraw.
  split; [apply ingest_first_candidate; assumption |].
  split; [reflexivity |].
  intro Hshort.
  rewrite ingest_first_candidate by assumption. cbn [fold_left].
  destruct (Nat.leb_spec 6 (length (cols_of raw))); [lia |]. cbn [andb].
  rewrite parse_row_short by exact Hshort. reflexivity.
Qed.

Lemma header_check_first_candidate_only_witness :
  ingest_lines StodDigits.stod
    (["# contacts"; "   "]
     ++ "id,iff,range_km,closing_mps,altitude_m,rcs_m2"
     :: ["B2,Foe,10,150,500,20"; "id,iff,range_km,closing_mps,altitude_m,rcs_m2"])%list
  = mkIngest [contact_B2] false
      ["Skipping row with invalid IFF: id,iff,range_km,closing_mps,altitude_m,rcs_m2"%string].
Proof.
  pose proof (header_check_first_candidate_only StodDigits.stod
                ["# contacts"; "   "]%string
                ["B2,Foe,10,150,500,20";
                 "id,iff,range_km,closing_mps,altitude_m,rcs_m2"]%string
                "id,iff,range_km,closing_mps,altitude_m,rcs_m2") as H.
  destruct H as (H & _ & _).
  - repeat constructor.
  - reflexivity.
  - rewrite H.
    change (cols_of "id,iff,range_km,closing_mps,altitude_m,rcs_m2")
      with ["id"; "iff"; "range_km"; "closing_mps"; "altitude_m"; "rcs_m2"]%string.
    cbn [length Nat.leb andb fold_left].
    change (looksHeader
              ["id"; "iff"; "range_km"; "closing_mps"; "altitude_m"; "rcs_m2"]%string)
      with true.
    cbv iota. unfold data_step.
    change (skipped "B2,Foe,10,150,500,20") with false. cbv iota.
    change (cols_of "B2,Foe,10,150,500,20")
      with ["B2"; "Foe"; "10"; "150"; "500"; "20"]%string.
    rewrite (parse_row_good _ _ _ _ Foe) by (cbn; first [lia | reflexivity]).
    change (skipped "id,iff,range_km,closing_mps,altitude_m,rcs_m2") with false.
    cbv iota.
    change (cols_of "id,iff,range_km,closing_mps,altitude_m,rcs_m2")
      with ["id"; "iff"; "range_km"; "closing_mps"; "altitude_m"; "rcs_m2"]%string.
    rewrite parse_row_bad_iff by (cbn; first [lia | reflexivity]).
    reflexivity.
Defined.

(** ** Rows are kept whatever their numeric columns hold *)

Section RowFacts.

Variable stod : string -> option R.

Lemma toDouble_default (s : string) (def : R) :
  stod s = None -> toDouble stod s def = def.
Proof. intro H. unfold toDouble. rewrite H. reflexivity. Qed.

Lemma toDouble_parsed (s : string) (def x : R) :
  stod s = Some x -> toDouble stod s def = x.
Proof. intro H. unfold toDouble. rewrite H. reflexivity. Qed.

Lemma looksHeader_parsed (cols : list string) (i : IFF) :
  parseIFF (nth 1 cols "") = Some i -> looksHeader cols = header_named cols.
Proof. intro H. unfold looksHeader. rewrite H. reflexivity. Qed.

(** A line with 6 columns and a classification token adds its contact,
    unless the header check takes it for the header. *)
Lemma loop_body_row (st : Ingest) (raw : string) (i : IFF) :
  skipped raw = false ->
  (6 <= length (cols_of raw))%nat ->
  parseIFF (nth 1 (cols_of raw) "") = Some i ->
  (maybeHeader st = true -> header_named (cols_of raw) = false) ->
  loop_body stod st raw
  = mkIngest (out st ++ [contact_of stod (cols_of raw) i]) false (cerr st).
Proof.
  intros S L P H. rewrite loop_body_candidate by exact S.
  destruct (maybeHeader st) eqn:F.
  - rewrite (looksHeader_parsed _ i P), (H eq_refl), andb_false_r.
    rewrite (parse_row_good stod _ _ _ i) by assumption. reflexivity.
  - rewrite (parse_row_good stod _ _ _ i) by assumption.
    rewrite F. reflexivity.
Qed.

(** The loop only ever appends to [out]. *)
Lemma loop_body_out_grows (st : Ingest) (raw : string) :
  exists more, out (loop_body stod st raw) = out st ++ more.
Proof.
  assert (P : forall line cols s,
             exists more, out (parse_row stod line cols s) = out s ++ more).
  { intros line cols s. unfold parse_row.
    destruct (length cols <? 6)%nat; [exists []; cbn; now rewrite app_nil_r |].
    destruct (parseIFF (nth 1 cols "")).
    - eexists. cbn. reflexivity.
    - exists []. cbn. now rewrite app_nil_r. }
  unfold loop_body.
  destruct (Str.trim raw =? "")%string; [exists []; now rewrite app_nil_r |].
  destruct (Str.starts_with "#" (Str.trim raw));
    [exists []; now rewrite app_nil_r |].
  destruct (maybeHeader st); [| apply P].
  destruct (6 <=? length (split_cols (Str.trim raw)))%nat; [| apply (P _ _ (clear_header st))].
  destruct (looksHeader (split_cols (Str.trim raw)));
    [exists []; cbn; now rewrite app_nil_r | apply (P _ _ (clear_header st))].
Qed.

Lemma fold_out_grows (lines : list string) (st : Ingest) :
  exists more, out (fold_left (loop_body stod) lines st) = out st ++ more.
Proof.
  revert st. induction lines as [| raw lines IH]; intro st; cbn.
  - exists []. now rewrite app_nil_r.
  - destruct (IH (loop_body stod st raw)) as [m1 E1].
    destruct (loop_body_out_grows st raw) as [m2 E2].
    exists (m2 ++ m1). rewrite E1, E2, app_assoc. reflexivity.
Qed.

End RowFacts.

(** C6. Per-field numeric fallback: a row with at least 6 columns and a
    recognised classification token is kept whatever its numeric columns
    hold; a numeric column that [stod] rejects gets the default of its field
    (range 1e9, closing speed 0, altitude 0, RCS 1) and one it accepts gets
    the value read.  (On the first candidate line the header check runs
    first; it looks for the two column names and never at whether a number
    parses.) *)
Theorem numeric_fallback_keeps_row
    (stod : string -> option R) (pre post : list string) (raw : string) (i : IFF) :
  skipped raw = false ->
  (6 <= length (cols_of raw))%nat ->
  parseIFF (nth 1 (cols_of raw) "") = Some i ->
  (maybeHeader (ingest_lines stod pre) = true -> header_named (cols_of raw) = false) ->
  let st := ingest_lines stod pre in
  let cols := cols_of raw in
  let c := contact_of stod cols i in
  loop_body stod st raw = mkIngest (out st ++ [c]) false (cerr st)
  /\ In c (out (ingest_lines stod (pre ++ raw :: post)))
  /\ id c = nth 0 cols "" /\ iff c = i
  /\ (stod (nth 2 cols "") = None -> range_km c = 1e9)
  /\ (stod (nth 3 cols "") = None -> closing_mps c = 0)
  /\ (stod (nth 4 cols "") = None -> altitude_m c = 0)
  /\ (stod (nth 5 cols "") = None -> rcs_m2 c = 1)
  /\ (forall x, stod (nth 2 cols "") = Some x -> range_km c = x)
  /\ (forall x, stod (nth 3 cols "") = Some x -> closing_mps c = x)
  /\ (forall x, stod (nth 4 cols "") = Some x -> altitude_m c = x)
  /\ (forall x, stod (nth 5 cols "") = Some x -> rcs_m2 c = x).
Proof.
  intros S L P H st cols c.
  assert (E : loop_body stod st raw = mkIngest (out st ++ [c]) false (cerr st))
    by (apply loop_body_row; assumption).
  split; [exact E |].
  split.
  { unfold ingest_lines. rewrite fold_left_app. cbn [fold_left].
    fold (ingest_lines stod pre). fold st. rewrite E.
    destruct (fold_out_grows stod post (mkIngest (out st ++ [c]) false (cerr st)))
      as [more Em].
    rewrite Em. cbn [out]. apply in_or_app. left. apply in_or_app. right.
    left. reflexivity. }
  split; [reflexivity |]. split; [reflexivity |].
  repeat split; intros; cbn; first [apply toDouble_default | apply toDouble_parsed];
    assumption.
Qed.

Lemma numeric_fallback_keeps_row_witness :
  ingest_lines StodDigits.stod
    ["id,iff,range_km,closing_mps,altitude_m,rcs_m2"; "T7,u,n/a,fast,?,20"]%string
  = mkIngest [mkContact "T7" Unknown 1e9 0 0 20] false [].
Proof.
  pose proof (numeric_fallback_keeps_row StodDigits.stod
                ["id,iff,range_km,closing_mps,altitude_m,rcs_m2"%string] []
                "T7,u,n/a,fast,?,20" Unknown) as H.
  destruct H as (H & _).
  - reflexivity.
  - cbv. lia.
  - reflexivity.
  - intros _. reflexivity.
  - unfold ingest_lines in *. cbn [fold_left] in *. rewrite H. reflexivity.
Defined.

(** ** Classification tokens *)

Lemma toupper_idempotent (c : ascii) : Str.toupper (Str.toupper c) = Str.toupper c.
Proof. destruct c as [[] [] [] [] [] [] [] []]; reflexivity. Qed.

Lemma toupper_tolower (c : ascii) : Str.toupper (Str.tolower c) = Str.toupper c.
Proof. destruct c as [[] [] [] [] [] [] [] []]; reflexivity. Qed.

Lemma upper_idempotent (s : string) :
  Str.map Str.toupper (Str.map Str.toupper s) = Str.map Str.toupper s.
Proof.
  induction s as [| c s IH]; cbn [Str.map]; [reflexivity |].
  rewrite toupper_idempotent, IH. reflexivity.
Qed.

Lemma upper_lower (s : string) :
  Str.map Str.toupper (Str.map Str.tolower s) = Str.map Str.toupper s.
Proof.
  induction s as [| c s IH]; cbn [Str.map]; [reflexivity |].
  rewrite toupper_tolower, IH. reflexivity.
Qed.

(** [parseIFF] looks at the upper-cased token only. *)
Lemma parseIFF_upper (t t' : string) :
  Str.map Str.toupper t = Str.map Str.toupper t' -> parseIFF t = parseIFF t'.
Proof. intro H. unfold parseIFF. rewrite H. reflexivity. Qed.

Ltac eqb_cases :=
  repeat match goal with
         | |- context [(?a =? ?b)%string] =>
             destruct (String.eqb_spec a b)
         end.

Lemma parseIFF_friend (t : string) :
  parseIFF t = Some Friend <->
  Str.map Str.toupper t = "FRIEND" \/ Str.map Str.toupper t = "F".
Proof.
  unfold parseIFF. generalize (Str.map Str.toupper t). intro u.
  eqb_cases; cbn; split; intro H;
    try discriminate; try (subst; discriminate); try tauto;
    try (destruct H; congruence).
Qed.

Lemma parseIFF_foe (t : string) :
  parseIFF t = Some Foe <->
  Str.map Str.toupper t = "FOE" \/ Str.map Str.toupper t = "HOSTILE"
  \/ Str.map Str.toupper t = "H".
Proof.
  unfold parseIFF. generalize (Str.map Str.toupper t). intro u.
  eqb_cases; cbn; split; intro H;
    try discriminate; try (subst; discriminate); try tauto;
    try (destruct H as [H | [H | H]]; congruence).
Qed.

Lemma parseIFF_unknown (t : string) :
  parseIFF t = Some Unknown <->
  Str.map Str.toupper t = "UNKNOWN" \/ Str.map Str.toupper t = "U".
Proof.
  unfold parseIFF. generalize (Str.map Str.toupper t). intro u.
  eqb_cases; cbn; split; intro H;
    try discriminate; try (subst; discriminate); try tauto;
    try (destruct H; congruence).
Qed.

Section ClassificationFacts.

Variable stod : string -> option R.

Lemma parse_row_classified (lines : list string) (raw : string) (st : Ingest) :
  In raw lines ->
  Forall (classified_from lines) (out st) ->
  Forall (classified_from lines)
         (out (parse_row stod (Str.trim raw) (cols_of raw) st)).
Proof.
  intros Hin Hst. unfold parse_row.
  destruct (length (cols_of raw) <? 6)%nat; [exact Hst |].
  destruct (parseIFF (nth 1 (cols_of raw) "")) as [i |] eqn:E; [| exact Hst].
  cbn [out]. apply Forall_app. split; [exact Hst |].
  constructor; [| constructor].
  exists raw. split; [exact Hin | exact E].
Qed.

Lemma loop_body_classified (lines : list string) (raw : string) (st : Ingest) :
  In raw lines ->
  Forall (classified_from lines) (out st) ->
  Forall (classified_from lines) (out (loop_body stod st raw)).
Proof.
  intros Hin Hst. destruct (skipped raw) eqn:S.
  - rewrite loop_body_skipped by exact S. exact Hst.
  - rewrite loop_body_candidate by exact S.
    destruct (maybeHeader st).
    + destruct ((6 <=? length (cols_of raw))%nat && looksHeader (cols_of raw)).
      * exact Hst.
      * apply parse_row_classified; assumption.
    + apply parse_row_classified; assumption.
Qed.

Lemma fold_classified (all lines : list string) (st : Ingest) :
  incl lines all ->
  Forall (classified_from all) (out st) ->
  Forall (classified_from all) (out (fold_left (loop_body stod) lines st)).
Proof.
  revert st. induction lines as [| raw lines IH]; intros st Hincl Hst; cbn.
  - exact Hst.
  - apply IH.
    + intros x Hx. apply Hincl. right. exact Hx.
    + apply loop_body_classified; [apply Hincl; left; reflexivity | exact Hst].
Qed.

Lemma ingest_classified (lines : list string) :
  Forall (classified_from lines) (out (ingest_lines stod lines)).
Proof. apply fold_classified; [apply incl_refl | constructor]. Qed.

End ClassificationFacts.

(** C8. Classification tokens: [parseIFF] reads a token without regard to
    case; FRIEND and F give Friend, FOE, HOSTILE and H give Foe, UNKNOWN and
    U give Unknown, and nothing else is a classification.  A data row (a
    line handled after the header check is over) whose token is not one of
    these is dropped with the diagnostic "Skipping row with invalid IFF",
    and nothing is added to the contacts; every contact the parser returns
    has the classification that [parseIFF] read from the classification
    column of some input line, never a default. *)
Theorem classification_token_parsing (stod : string -> option R) :
  (forall t, parseIFF (Str.map Str.toupper t) = parseIFF t
             /\ parseIFF (Str.map Str.tolower t) = parseIFF t)
  /\ (forall t, parseIFF t = Some Friend <->
                Str.map Str.toupper t = "FRIEND" \/ Str.map Str.toupper t = "F")
  /\ (forall t, parseIFF t = Some Foe <->
                Str.map Str.toupper t = "FOE" \/ Str.map Str.toupper t = "HOSTILE"
                \/ Str.map Str.toupper t = "H")
  /\ (forall t, parseIFF t = Some Unknown <->
                Str.map Str.toupper t = "UNKNOWN" \/ Str.map Str.toupper t = "U")
  /\ (forall st raw,
        skipped raw = false -> maybeHeader st = false ->
        (6 <= length (cols_of raw))%nat ->
        parseIFF (nth 1 (cols_of raw) "") = None ->
        loop_body stod st raw
        = mkIngest (out st) false
            (cerr st ++ [("Skipping row with invalid IFF: " ++ Str.trim raw)%string]))
  /\ (forall lines c,
        In c (out (ingest_lines stod lines)) ->
        exists raw, In raw lines
                    /\ parseIFF (nth 1 (cols_of raw) "") = Some (iff c)).
Proof.
  split.
  { intro t. split; apply parseIFF_upper;
      [apply upper_idempotent | apply upper_lower]. }
  split; [exact parseIFF_friend |].
  split; [exact parseIFF_foe |].
  split; [exact parseIFF_unknown |].
  split.
  { intros st raw S F L P.
    rewrite loop_body_candidate by exact S. rewrite F.
    rewrite parse_row_bad_iff by assumption. rewrite F. reflexivity. }
  intros lines c Hin.
  pose proof (ingest_classified stod lines) as H.
  rewrite Forall_forall in H. exact (H c Hin).
Qed.

Lemma classification_token_parsing_witness :
  parseIFF "hOsTiLe" = Some Foe
  /\ loop_body StodDigits.stod (mkIngest [contact_B2] false []) "C3,xyz,10,150,500,20"
     = mkIngest [contact_B2] false
         ["Skipping row with invalid IFF: C3,xyz,10,150,500,20"%string].
Proof.
  pose proof (classification_token_parsing StodDigits.stod)
    as (_ & _ & Hfoe & _ & Hrow & _).
  split.
  - apply Hfoe. right. left. reflexivity.
  - apply Hrow.
    + reflexivity.
    + reflexivity.
    + cbv. lia.
    + reflexivity.
Defined.

(* ================================================================== *)
(** * The program run *)

Section RunFacts.

Context {P : Platform}.
Variable stod : string -> option R.
Variable fs : string -> option string.

Lemma main_cannot_open (argv : list string) :
  fs (csvPath argv) = None ->
  main stod fs argv
  = mkRun 2 [] [("ERROR: Failed to open CSV: " ++ csvPath argv)%string].
Proof.
  intro H. unfold main, main_try, loadCSV. rewrite H. reflexivity.
Qed.

Lemma main_no_contacts (argv : list string) (content : string) :
  fs (csvPath argv) = Some content ->
  out (ingest_lines stod (Str.getlines LF content)) = [] ->
  main stod fs argv
  = mkRun 1 []
      (cerr (ingest_lines stod (Str.getlines LF content))
       ++ [("No contacts loaded from " ++ csvPath argv)%string]).
Proof.
  intros H E. unfold main, main_try, loadCSV. rewrite H, E. reflexivity.
Qed.

Lemma main_ranked (argv : list string) (content : string) :
  fs (csvPath argv) = Some content ->
  out (ingest_lines stod (Str.getlines LF content)) <> [] ->
  main stod fs argv
  = mkRun 0
      (printTable
         (rank_pairs
            (score_all default_weights
               (out (ingest_lines stod (Str.getlines LF content))))))
      (cerr (ingest_lines stod (Str.getlines LF content))).
Proof.
  intros H E. unfold main, main_try, loadCSV. rewrite H.
  destruct (out (ingest_lines stod (Str.getlines LF content)));
    [contradiction | reflexivity].
Qed.

Lemma main_try_throws (argv : list string) (e : exception) :
  main_try stod fs argv = inl e ->
  fs (csvPath argv) = None
  /\ e = runtime_error ("Failed to open CSV: " ++ csvPath argv)%string.
Proof.
  unfold main_try, loadCSV. destruct (fs (csvPath argv)).
  - destruct (out (ingest_lines stod (Str.getlines LF s))); discriminate.
  - intro H. injection H as <-. split; reflexivity.
Qed.

Lemma print_rows_length (rank : Z) (ranked : list (Contact * R)) :
  length (print_rows rank ranked) = length ranked.
Proof.
  revert rank. induction ranked as [| [c s] rest IH]; intro rank; cbn.
  - reflexivity.
  - rewrite IH. reflexivity.
Qed.

End RunFacts.

(** C7. Exit codes: a run whose input file cannot be opened exits with code
    2, prints no table and writes "ERROR: Failed to open CSV: <path>" to
    standard error, and so does every exception that leaves the [try] block;
    a run that reads the file but keeps no record exits with code 1, prints
    nothing on standard output and ends standard error with "No contacts
    loaded from <path>"; a run that keeps at least one record exits with
    code 0 after printing the table, one row per record.  No other exit code
    occurs. *)
Theorem exit_code_mapping {P : Platform}
    (stod : string -> option R) (fs : string -> option string)
    (argv : list string) :
  let path := csvPath argv in
  let r := main stod fs argv in
  (fs path = None ->
     exit_code r = 2%Z /\ cout r = []
     /\ run_cerr r = [("ERROR: Failed to open CSV: " ++ path)%string])
  /\ (forall e, main_try stod fs argv = inl e ->
     exit_code r = 2%Z /\ cout r = []
     /\ run_cerr r = [("ERROR: " ++ what e)%string])
  /\ (forall content,
     fs path = Some content ->
     out (ingest_lines stod (Str.getlines LF content)) = [] ->
     exit_code r = 1%Z /\ cout r = []
     /\ run_cerr r = cerr (ingest_lines stod (Str.getlines LF content))
                     ++ [("No contacts loaded from " ++ path)%string])
  /\ (forall content,
     fs path = Some content ->
     out (ingest_lines stod (Str.getlines LF content)) <> [] ->
     exit_code r = 0%Z
     /\ cout r = printTable
                   (rank_pairs
                      (score_all default_weights
                         (out (ingest_lines stod (Str.getlines LF content)))))
     /\ length (cout r)
        = (2 + length (out (ingest_lines stod (Str.getlines LF content))))%nat
     /\ run_cerr r = cerr (ingest_lines stod (Str.getlines LF content)))
  /\ (exit_code r = 0%Z \/ exit_code r = 1%Z \/ exit_code r = 2%Z).
Proof.
  intros path r. subst path r.
  split.
  { intro H. rewrite main_cannot_open by exact H. repeat split. }
  split.
  { intros e H. unfold main. rewrite H. repeat split. }
  split.
  { intros content H E. rewrite (main_no_contacts _ _ _ content) by assumption.
    repeat split. }
  split.
  { intros content H E. rewrite (main_ranked _ _ _ content) by assumption.
    cbn [exit_code cout run_cerr]. repeat split.
    unfold printTable. cbn [length]. rewrite print_rows_length.
    rewrite <- (Permutation_length (rank_pairs_perm _)).
    unfold score_all. rewrite length_map. reflexivity. }
  destruct (fs (csvPath argv)) as [content |] eqn:H.
  - destruct (out (ingest_lines stod (Str.getlines LF content))) eqn:E.
    + right. left. rewrite (main_no_contacts _ _ _ content) by assumption.
      reflexivity.
    + left. rewrite (main_ranked _ _ _ content); [reflexivity | exact H |].
      rewrite E. discriminate.
  - right. right. rewrite main_cannot_open by exact H. reflexivity.
Qed.

Lemma exit_code_mapping_witness :
  exit_code (main (P := exact) StodDigits.stod (fun _ => None) ["sentinel"%string]) = 2%Z
  /\ exit_code
       (main (P := exact) StodDigits.stod (fun _ => Some "# nothing here"%string)
             ["sentinel"; "empty.csv"]%string) = 1%Z
  /\ exit_code
       (main (P := exact) StodDigits.stod (fun _ => Some "B2,Foe,10,150,500,20"%string)
             ["sentinel"; "one.csv"]%string) = 0%Z.
Proof.
  split.
  { apply (exit_code_mapping (P := exact) StodDigits.stod (fun _ => None) ["sentinel"%string]).
    reflexivity. }
  split.
  { apply (exit_code_mapping (P := exact) StodDigits.stod (fun _ => Some "# nothing here"%string)
             ["sentinel"; "empty.csv"]%string) with (content := "# nothing here"%string);
      reflexivity. }
  apply (exit_code_mapping (P := exact) StodDigits.stod (fun _ => Some "B2,Foe,10,150,500,20"%string)
           ["sentinel"; "one.csv"]%string) with (content := "B2,Foe,10,150,500,20"%string).
  - reflexivity.
  - change (Str.getlines LF "B2,Foe,10,150,500,20") with ["B2,Foe,10,150,500,20"%string].
    unfold ingest_lines. cbn [fold_left].
    rewrite (B2_row_parsed StodDigits.stod) by reflexivity. discriminate.
Defined.


(* ================================================================== *)
(** * Further properties of the pipeline *)

(** X1. The threshold rules of [suggestion], in order: Friend gives
    IGNORE (FRIEND); otherwise a score above 120 with range below 25 and
    closing speed above 100 gives INTERCEPT; otherwise a score above 80 with
    range below 50 gives ELEVATED MONITOR; everything else gives MONITOR. *)
Theorem suggestion_rules (c : Contact) (s : R) :
  let intercept := s > 120 /\ range_km c < 25 /\ closing_mps c > 100 in
  let elevated := s > 80 /\ range_km c < 50 in
  (suggestion c s = "IGNORE (FRIEND)" <-> iff c = Friend)
  /\ (suggestion c s = "INTERCEPT" <-> iff c <> Friend /\ intercept)
  /\ (suggestion c s = "ELEVATED MONITOR" <->
      iff c <> Friend /\ ~ intercept /\ elevated)
  /\ (suggestion c s = "MONITOR" <->
      iff c <> Friend /\ ~ intercept /\ ~ elevated).
Proof.
  intros intercept elevated. subst intercept elevated.
  destruct (iff c) eqn:F.
  - unfold suggestion. rewrite F.
    repeat split; intros; try discriminate; try tauto; try congruence.
  - rewrite suggestion_not_friend by congruence.
    destruct (Rgtb_spec s 120), (Rltb_spec (range_km c) 25),
      (Rgtb_spec (closing_mps c) 100), (Rgtb_spec s 80),
      (Rltb_spec (range_km c) 50); cbn [andb];
      repeat split; intros; try discriminate; try congruence; try tauto; try lra.
  - rewrite suggestion_not_friend by congruence.
    destruct (Rgtb_spec s 120), (Rltb_spec (range_km c) 25),
      (Rgtb_spec (closing_mps c) 100), (Rgtb_spec s 80),
      (Rltb_spec (range_km c) 50); cbn [andb];
      repeat split; intros; try discriminate; try congruence; try tauto; try lra.
Qed.

Lemma print_rows_nth (ranked : list (Contact * R)) (rank : Z) (k : nat)
    (c : Contact) (s : R) :
  nth_error ranked k = Some (c, s) ->
  nth_error (print_rows rank ranked) k
  = Some (TableRow (rank + Z.of_nat k) c s (suggestion c s)).
Proof.
  revert rank k. induction ranked as [| [c0 s0] rest IH]; intros rank k H.
  - destruct k; discriminate.
  - destruct k as [| k].
    + cbn in H. injection H as <- <-. cbn. rewrite Z.add_0_r. reflexivity.
    + cbn [nth_error] in H. cbn [print_rows nth_error].
      rewrite (IH _ _ H). do 2 f_equal. lia.
Qed.

(** X2. The table: after the heading and the rule, [printTable] prints one
    row per ranked pair, in ranked order; the row of the pair at position
    [k] (from 0) carries rank [k + 1], the pair's contact and score, and the
    suggestion for them. *)
Theorem table_rows_in_rank_order (ranked : list (Contact * R)) (k : nat)
    (c : Contact) (s : R) :
  nth_error ranked k = Some (c, s) ->
  nth_error (printTable ranked) 0 = Some TableHeader
  /\ nth_error (printTable ranked) 1 = Some TableRule
  /\ nth_error (printTable ranked) (2 + k)
     = Some (TableRow (Z.of_nat k + 1) c s (suggestion c s))
  /\ length (printTable ranked) = (2 + length ranked)%nat.
Proof.
  intro H. unfold printTable. cbn [nth_error Nat.add length].
  rewrite (print_rows_nth ranked 1 k c s H), print_rows_length.
  repeat split. do 2 f_equal. lia.
Qed.

Lemma table_rows_in_rank_order_witness :
  nth_error (printTable [(contact_B2, 7); (with_range contact_B2 3, 4)]) 3
  = Some (TableRow 2 (with_range contact_B2 3) 4
            (suggestion (with_range contact_B2 3) 4)).
Proof.
  apply (table_rows_in_rank_order
           [(contact_B2, 7); (with_range contact_B2 3, 4)] 1
           (with_range contact_B2 3) 4).
  reflexivity.
Defined.

(** X3. Ranges of two terms under the default weights, on every platform
    that rounds as binary64 does: the inverse-range term lies in [0, 1200],
    and the closing-speed term in [0, 25]; it is 0 for a receding or
    stationary contact and 25 from 400 m/s on. *)
Theorem term_ranges {P : Platform} {HP : Conforming P} (c : Contact) :
  0 <= s_range c default_weights <= 1200
  /\ 0 <= s_closing c default_weights <= 25
  /\ (closing_mps c <= 0 -> s_closing c default_weights = 0)
  /\ (400 <= closing_mps c -> s_closing c default_weights = 25).
Proof.
  pose proof (inv_range_bounds c) as I.
  pose proof (closing_norm_bounds c) as N.
  split.
  { split; [apply s_range_nonneg |].
    unfold s_range, fmul. cbn [w_range_inv default_weights].
    apply (rnd_le_integer _ 1200); [small_integer | lra]. }
  split.
  { split; [apply s_closing_nonneg |].
    unfold s_closing. cbn [w_closing default_weights].
    assert ((closing_norm c [*] 100.0)%fl <= 100)
      by (apply (rnd_le_integer _ 100); [small_integer | lra]).
    assert (0 <= (closing_norm c [*] 100.0)%fl) by (apply fmul_nonneg; lra).
    unfold fmul at 1. apply (rnd_le_integer _ 25); [small_integer | lra]. }
  split.
  { intro H. unfold s_closing, closing_norm. cbn [w_closing default_weights].
    assert (Q : (closing_mps c [/] 400.0)%fl <= 0).
    { apply (rnd_le_integer _ 0); [small_integer |].
      unfold Rdiv. assert (0 < / 400.0) by (apply Rinv_0_lt_compat; lra). nra. }
    assert (E : clamp (closing_mps c [/] 400.0)%fl 0.0 1.0 = 0).
    { unfold clamp, Std.max, Std.min. cmp_cases; lra. }
    rewrite E. unfold fmul.
    replace (0 * 100.0) with 0 by lra. rewrite rnd_0.
    replace (0.25 * 0) with 0 by lra. apply rnd_0. }
  intro H. unfold s_closing, closing_norm. cbn [w_closing default_weights].
  assert (Q : 1 <= (closing_mps c [/] 400.0)%fl).
  { apply (rnd_ge_integer _ 1); [small_integer |].
    unfold Rdiv. assert (/ 400.0 = 0.0025) by lra. nra. }
  assert (E : clamp (closing_mps c [/] 400.0)%fl 0.0 1.0 = 1).
  { unfold clamp, Std.max, Std.min. cmp_cases; lra. }
  rewrite E. unfold fmul.
  replace (1 * 100.0) with 100 by lra.
  rewrite (rnd_integer 100) by small_integer.
  replace (0.25 * 100) with 25 by lra.
  apply (rnd_integer 25). small_integer.
Qed.

Lemma term_ranges_witness :
  s_closing (P := exact) (with_closing contact_B2 900) exact_weights = 25
  /\ s_closing (P := exact) (with_closing contact_B2 (-30)) exact_weights = 0.
Proof.
  split.
  - apply (term_ranges (HP := exact_conforming) (with_closing contact_B2 900)).
    cbn. lra.
  - apply (term_ranges (HP := exact_conforming) (with_closing contact_B2 (-30))).
    cbn. lra.
Defined.

(** X4. The parser keeps the input order and never takes anything back:
    reading further lines only appends contacts to those already read. *)
Theorem parser_appends_in_input_order
    (stod : string -> option R) (l1 l2 : list string) :
  exists more,
    out (ingest_lines stod (l1 ++ l2)) = out (ingest_lines stod l1) ++ more.
Proof.
  unfold ingest_lines. rewrite fold_left_app. apply fold_out_grows.
Qed.

(* ================================================================== *)
(** * Runs on binary64 numbers *)

Module F64Facts.

Import Floats.
Local Open Scope float_scope.
#[local] Set Warnings "-inexact-float".

(** The binary64 numbers nearest to the literals 0.05, 0.01, 0.4 and 0.004
    are the larger neighbours. *)
Lemma literals_round_up :
  F64.at_least 0.05 5 100 = true
  /\ F64.at_least 0.01 1 100 = true
  /\ F64.at_least 0.4 4 10 = true
  /\ F64.at_least 0.004 4 1000 = true.
Proof. repeat split; vm_compute; reflexivity. Qed.

(** C5 as stated fails on binary64 numbers: for each of the four terms two
    different inputs inside the stated range give the same term.  (The
    decimal numbers are the shortest spellings of the binary64 numbers
    meant.  For the RCS term the two logarithms are those a correctly
    rounded [log10] returns.) *)
Lemma nearby_inputs_same_term :
  ((0.05 <? 10.000000000000002) = true
   /\ (10.000000000000002 <? 10.000000000000004) = true
   /\ F64.s_range (F64.probe 10.000000000000002 0 0 1) F64.default_weights
      = 5.9999999999999982
   /\ F64.s_range (F64.probe 10.000000000000004 0 0 1) F64.default_weights
      = 5.9999999999999982)
  /\ ((0 <=? 200.00000000000003) = true
   /\ (200.00000000000003 <? 200.00000000000006) = true
   /\ (200.00000000000006 <=? 400) = true
   /\ F64.s_closing (F64.probe 10 200.00000000000003 0 1) F64.default_weights
      = 12.500000000000004
   /\ F64.s_closing (F64.probe 10 200.00000000000006 0 1) F64.default_weights
      = 12.500000000000004)
  /\ ((0.01 <=? 1) = true
   /\ (1 <? 1.0000000000000002) = true
   /\ (1.0000000000000002 <=? 100) = true
   /\ forall log10 : float -> float,
        log10 1 = 0 ->
        log10 1.0000000000000002 = 9.64327466553287e-17 ->
        F64.s_rcs log10 (F64.probe 10 0 0 1) F64.default_weights = 20
        /\ F64.s_rcs log10 (F64.probe 10 0 0 1.0000000000000002)
             F64.default_weights = 20)
  /\ ((0 <=? 1000) = true
   /\ (1000 <? 1000.0000000000001) = true
   /\ (1000.0000000000001 <=? 20000) = true
   /\ F64.s_alt (F64.probe 10 0 1000 1) F64.default_weights = 0.38
   /\ F64.s_alt (F64.probe 10 0 1000.0000000000001 1) F64.default_weights
      = 0.38).
Proof.
  split; [repeat split; vm_compute; reflexivity |].
  split; [repeat split; vm_compute; reflexivity |].
  split; [| repeat split; vm_compute; reflexivity].
  split; [vm_compute; reflexivity |].
  split; [vm_compute; reflexivity |].
  split; [vm_compute; reflexivity |].
  intros log10 H1 H2. unfold F64.s_rcs, F64.rcs_log.
  change (F64.max 0.01 (F64.rcs_m2 (F64.probe 10 0 0 1))) with 1.
  change (F64.max 0.01 (F64.rcs_m2 (F64.probe 10 0 0 1.0000000000000002)))
    with 1.0000000000000002.
  rewrite H1, H2. split; vm_compute; reflexivity.
Qed.

(** C10 as stated fails on binary64 numbers: a Friend far away, high up and
    small does not score above -40, the positive inverse-range term being
    rounded away in the sum.  With the logarithm a correctly rounded [log10]
    returns at the literal 0.01 the score is exactly -40; with either
    neighbour of that value it is still not above -40. *)
Lemma far_friend_scores_minus_40 :
  F64.iff F64.far_friend = Friend
  /\ (0 <? F64.s_range F64.far_friend F64.default_weights) = true
  /\ (forall log10 : float -> float,
       log10 0.01 = -2 ->
       F64.score log10 F64.far_friend F64.default_weights = -40)
  /\ (forall log10 : float -> float,
       log10 0.01 = -2 \/ log10 0.01 = -1.9999999999999998
       \/ log10 0.01 = -2.0000000000000004 ->
       (-40 <? F64.score log10 F64.far_friend F64.default_weights) = false).
Proof.
  split; [reflexivity |].
  split; [vm_compute; reflexivity |].
  split.
  - intros log10 H.
    unfold F64.score, F64.s_rcs, F64.rcs_log.
    change (F64.max 0.01 (F64.rcs_m2 F64.far_friend)) with 0.01.
    rewrite H. vm_compute. reflexivity.
  - intros log10 H.
    unfold F64.score, F64.s_rcs, F64.rcs_log.
    change (F64.max 0.01 (F64.rcs_m2 F64.far_friend)) with 0.01.
    destruct H as [H | [H | H]]; rewrite H; vm_compute; reflexivity.
Qed.

(** The cap of the inverse-range factor on binary64 numbers: just above the
    literal 0.05 the quotient is below 20. *)
Lemma inverse_range_below_cap :
  (0.05 <? next_up 0.05) = true
  /\ F64.inv_range (F64.probe (next_up 0.05) 0 0 1) = 19.999999999999996
  /\ (F64.inv_range (F64.probe (next_up 0.05) 0 0 1) <? 20) = true
  /\ F64.inv_range (F64.probe 0.05 0 0 1) = 20
  /\ F64.inv_range (F64.probe 0 0 0 1) = 20
  /\ F64.inv_range (F64.probe (-3) 0 0 1) = 20.
Proof. repeat split; vm_compute; reflexivity. Qed.

(** The worked example on binary64 numbers, with the logarithm of 20 a
    correctly rounded [log10] returns. *)
Lemma B2_score :
  forall log10 : float -> float,
    log10 20 = 1.3010299956639813 ->
    F64.score log10 F64.contact_B2 F64.default_weights = 78.775299956639813
    /\ (78.775 <? F64.score log10 F64.contact_B2 F64.default_weights) = true
    /\ (F64.score log10 F64.contact_B2 F64.default_weights <? 78.776) = true.
Proof.
  intros log10 H.
  assert (E : F64.score log10 F64.contact_B2 F64.default_weights
              = 78.775299956639813).
  { unfold F64.score, F64.s_rcs, F64.rcs_log.
    change (F64.max 0.01 (F64.rcs_m2 F64.contact_B2)) with 20.
    rewrite H. vm_compute. reflexivity. }
  split; [exact E | rewrite E; split; vm_compute; reflexivity].
Qed.

End F64Facts.

(* ================================================================== *)
(** * Strings *)

Section TrimFacts.

Local Open Scope nat_scope.

Lemma append_nil_r (s : string) : (s ++ "")%string = s.
Proof. induction s as [| c s IH]; cbn; [reflexivity | now rewrite IH]. Qed.

Lemma append_assoc (a b c : string) :
  ((a ++ b) ++ c)%string = (a ++ (b ++ c))%string.
Proof. induction a as [| x a IH]; cbn; [reflexivity | now rewrite IH]. Qed.

Lemma length_append (a b : string) :
  String.length (a ++ b) = String.length a + String.length b.
Proof. induction a as [| x a IH]; cbn; [reflexivity | now rewrite IH]. Qed.

Lemma substring_all (a b : string) :
  substring 0 (String.length a) (a ++ b) = a.
Proof.
  induction a as [| x a IH]; cbn.
  - destruct b; reflexivity.
  - now rewrite IH.
Qed.

Lemma substring_skip (a b : string) (n m : nat) :
  substring (String.length a + n) m (a ++ b) = substring n m b.
Proof. induction a as [| x a IH]; cbn; [reflexivity | exact IH]. Qed.

Lemma first_blank (s : string) :
  Txt.blank s = true -> Str.find_first_not_of s = None.
Proof.
  induction s as [| c s IH]; cbn; [reflexivity |].
  intro H. apply andb_prop in H. destruct H as [Hc Hs].
  rewrite Hc, (IH Hs). reflexivity.
Qed.

Lemma last_blank (s : string) :
  Txt.blank s = true -> Str.find_last_not_of s = None.
Proof.
  induction s as [| c s IH]; cbn; [reflexivity |].
  intro H. apply andb_prop in H. destruct H as [Hc Hs].
  rewrite (IH Hs), Hc. reflexivity.
Qed.

Lemma trim_blank (s : string) : Txt.blank s = true -> Str.trim s = "".
Proof. intro H. unfold Str.trim. rewrite (first_blank s H). reflexivity. Qed.

(** A leading blank is dropped. *)
Lemma trim_cons_blank (c : ascii) (s : string) :
  Str.is_ws c = true -> Str.trim (String c s) = Str.trim s.
Proof.
  intro Hc. unfold Str.trim. cbn [Str.find_first_not_of Str.find_last_not_of].
  rewrite Hc.
  destruct (Str.find_first_not_of s) as [b |] eqn:Fb; cbn [option_map];
    [| reflexivity].
  destruct (find_last_defined s b Fb) as (e & Fe & Hbe).
  rewrite Fe. cbn [substring]. reflexivity.
Qed.

Lemma trim_blank_prefix (l s : string) :
  Txt.blank l = true -> Str.trim (l ++ s) = Str.trim s.
Proof.
  induction l as [| c l IH]; cbn; [reflexivity |].
  intro H. apply andb_prop in H. destruct H as [Hc Hl].
  rewrite trim_cons_blank by exact Hc. apply IH. exact Hl.
Qed.

Lemma find_last_cons (c : ascii) (s : string) :
  Str.find_last_not_of (String c s)
  = match Str.find_last_not_of s with
    | Some i => Some (S i)
    | None => if Str.is_ws c then None else Some 0
    end.
Proof. reflexivity. Qed.

(** The last character that is no blank, when the text ends with a tight
    part followed by blanks. *)
Lemma last_of_tight (t r : string) (c : ascii) :
  Txt.back t = Some c -> Str.is_ws c = false -> Txt.blank r = true ->
  Str.find_last_not_of (t ++ r) = Some (String.length t - 1).
Proof.
  intros Hb Hc Hr. induction t as [| x t IH]; [discriminate |].
  destruct t as [| y t].
  - cbn in Hb. injection Hb as ->. cbn.
    rewrite (last_blank r Hr), Hc. reflexivity.
  - change ((String x (String y t) ++ r)%string)
      with (String x (String y t ++ r)).
    rewrite find_last_cons, (IH Hb). cbn. f_equal. lia.
Qed.

(** [trim] finds the tight part of a text between blanks. *)
Lemma trim_unique (l t r : string) :
  Txt.blank l = true -> Txt.blank r = true -> Txt.tight t = true ->
  Str.trim (l ++ t ++ r) = t.
Proof.
  intros Hl Hr Ht. rewrite trim_blank_prefix by exact Hl.
  destruct t as [| x t]; [cbn; apply trim_blank; exact Hr |].
  unfold Txt.tight in Ht. apply andb_prop in Ht. destruct Ht as [Hf Hb].
  cbn in Hf. apply negb_true_iff in Hf.
  destruct (Txt.back (String x t)) as [c |] eqn:Eb.
  2:{ exfalso. clear - Eb. revert x Eb. induction t as [| y t IH]; intros x Eb.
      - discriminate.
      - apply (IH y). exact Eb. }
  cbn in Hb. apply negb_true_iff in Hb.
  unfold Str.trim.
  rewrite (last_of_tight (String x t) r c Eb Hb Hr).
  cbn [append Str.find_first_not_of]. rewrite Hf.
  replace (String.length (String x t) - 1 - 0 + 1) with (String.length (String x t))
    by (cbn; lia).
  change (String x (t ++ r)) with (String x t ++ r)%string.
  apply substring_all.
Qed.

Lemma blank_app (a b : string) :
  Txt.blank (a ++ b) = Txt.blank a && Txt.blank b.
Proof.
  induction a as [| c a IH]; cbn; [reflexivity |].
  rewrite IH. apply andb_assoc.
Qed.

Lemma back_app (a t : string) : t <> "" -> Txt.back (a ++ t) = Txt.back t.
Proof.
  intro H. induction a as [| c a IH]; [reflexivity |].
  cbn [append]. cbn [Txt.back]. rewrite IH.
  destruct (a ++ t)%string eqn:E; [| reflexivity].
  destruct a; [cbn in E; contradiction | discriminate].
Qed.

(** Every text is a tight part between two runs of blanks. *)
Lemma tight_part (s : string) :
  exists l t r,
    s = (l ++ t ++ r)%string
    /\ Txt.blank l = true /\ Txt.blank r = true /\ Txt.tight t = true.
Proof.
  induction s as [| c s (l & t & r & E & Hl & Hr & Ht)].
  - exists "", "", "". repeat split.
  - destruct (Str.is_ws c) eqn:Hc.
    + exists (String c l), t, r. rewrite E. cbn [append Txt.blank].
      rewrite Hc, Hl. repeat split; assumption.
    + destruct t as [| x t].
      * exists "", (String c ""), (l ++ r)%string. rewrite E.
        cbn [append]. rewrite blank_app, Hl, Hr.
        unfold Txt.tight. cbn. rewrite Hc. repeat split.
      * exists "", (String c (l ++ String x t)), r. rewrite E.
        cbn [append]. rewrite append_assoc.
        split; [reflexivity |]. split; [reflexivity |]. split; [exact Hr |].
        unfold Txt.tight in *. cbn [Txt.front get Txt.is_ws_opt].
        rewrite Hc. cbn [negb andb].
        apply andb_prop in Ht. destruct Ht as [_ Hb].
        change (String c (l ++ String x t)) with (String c l ++ String x t)%string.
        rewrite back_app by discriminate. exact Hb.
Qed.

(** X7. [trim] returns the part of its argument between the leading and the
    trailing blanks (space, tab, carriage return, newline): what it cuts off
    on either side is blank, what it returns neither begins nor ends with a
    blank, and blanks inside are kept.  A text is returned unchanged exactly
    when it neither begins nor ends with a blank. *)
Theorem trim_shape (s : string) :
  (exists l r, Txt.blank l = true /\ Txt.blank r = true
               /\ s = (l ++ Str.trim s ++ r)%string)
  /\ Txt.tight (Str.trim s) = true
  /\ (Str.trim s = s <-> Txt.tight s = true).
Proof.
  destruct (tight_part s) as (l & t & r & E & Hl & Hr & Ht).
  assert (T : Str.trim s = t) by (rewrite E; apply trim_unique; assumption).
  split; [exists l, r; rewrite T; repeat split; assumption |].
  split; [rewrite T; exact Ht |].
  split.
  - intro H. rewrite <- H, T. exact Ht.
  - intro H. pose proof (trim_unique "" s "" eq_refl eq_refl H) as U.
    cbn [append] in U. rewrite append_nil_r in U. exact U.
Qed.

Lemma trim_padding (l s r : string) :
  Txt.blank l = true -> Txt.blank r = true ->
  Str.trim (l ++ s ++ r) = Str.trim s.
Proof.
  intros Hl Hr.
  destruct (tight_part s) as (l0 & t & r0 & E & Hl0 & Hr0 & Ht).
  assert (T : Str.trim s = t) by (rewrite E; apply trim_unique; assumption).
  rewrite T, E.
  replace (l ++ (l0 ++ t ++ r0) ++ r)%string
    with ((l ++ l0) ++ t ++ (r0 ++ r))%string
    by (rewrite !append_assoc; reflexivity).
  apply trim_unique; [| | exact Ht]; rewrite blank_app.
  - rewrite Hl, Hl0. reflexivity.
  - rewrite Hr0, Hr. reflexivity.
Qed.

(** X8. Blanks around a text make no difference to [trim], and trimming
    twice is trimming once. *)
Theorem trim_ignores_padding (l s r : string) :
  Txt.blank l = true -> Txt.blank r = true ->
  Str.trim (l ++ s ++ r) = Str.trim s
  /\ Str.trim (Str.trim s) = Str.trim s.
Proof.
  intros Hl Hr. split; [apply trim_padding; assumption |].
  destruct (tight_part s) as (l0 & t & r0 & E & Hl0 & Hr0 & Ht).
  assert (T : Str.trim s = t) by (rewrite E; apply trim_unique; assumption).
  rewrite T. pose proof (trim_unique "" t "" eq_refl eq_refl Ht) as V.
  cbn [append] in V. rewrite append_nil_r in V. exact V.
Qed.

Lemma trim_ignores_padding_witness :
  Str.trim (" " ++ "A1, Foe" ++ String "013" "") = Str.trim "A1, Foe".
Proof.
  apply (trim_ignores_padding " " "A1, Foe" (String "013" "")); reflexivity.
Defined.

End TrimFacts.

(* ================================================================== *)
(** * Tokens *)

Section TokenFacts.

Local Open Scope nat_scope.

Lemma getlines_nil (d : ascii) (s : string) : Str.getlines d s = [] -> s = "".
Proof.
  destruct s as [| c s]; [reflexivity |]. cbn.
  destruct (c =? d)%char; [discriminate |].
  destruct (Str.getlines d s); discriminate.
Qed.

Lemma join_cons (d : ascii) (c : ascii) (tok : string) (rest : list string) :
  Txt.join d (String c tok :: rest) = String c (Txt.join d (tok :: rest)).
Proof. destruct rest; reflexivity. Qed.

Lemma ends_with_cons (d c : ascii) (s : string) :
  s <> "" -> Txt.ends_with d (String c s) = Txt.ends_with d s.
Proof. intro H. destruct s; [contradiction | reflexivity]. Qed.

Lemma ends_with_single (d c : ascii) :
  Txt.ends_with d (String c "") = (c =? d)%char.
Proof. reflexivity. Qed.

Lemma getlines_join (d : ascii) (s : string) :
  s = (Txt.join d (Str.getlines d s)
       ++ (if Txt.ends_with d s then String d "" else ""))%string.
Proof.
  induction s as [| c s IH]; [reflexivity |].
  cbn [Str.getlines]. destruct (c =? d)%char eqn:E.
  - apply Ascii.eqb_eq in E. subst c.
    destruct (Str.getlines d s) as [| tok rest] eqn:G.
    + apply getlines_nil in G. subst s.
      rewrite ends_with_single, Ascii.eqb_refl. reflexivity.
    + assert (N : s <> "") by (intro Z; subst s; discriminate).
      rewrite ends_with_cons by exact N.
      change (Txt.join d ("" :: tok :: rest))
        with (String d (Txt.join d (tok :: rest))).
      cbn [append]. f_equal. exact IH.
  - destruct (Str.getlines d s) as [| tok rest] eqn:G.
    + apply getlines_nil in G. subst s. rewrite ends_with_single, E. reflexivity.
    + assert (N : s <> "") by (intro Z; subst s; discriminate).
      rewrite ends_with_cons by exact N. rewrite join_cons.
      cbn [append]. f_equal. exact IH.
Qed.

Lemma getlines_clean (d : ascii) (s : string) :
  Forall (fun tok => Txt.count d tok = 0) (Str.getlines d s).
Proof.
  induction s as [| c s IH]; [constructor |].
  cbn [Str.getlines]. destruct (c =? d)%char eqn:E.
  - constructor; [reflexivity | exact IH].
  - destruct (Str.getlines d s) as [| tok rest].
    + constructor; [cbn; rewrite E; reflexivity | constructor].
    + inversion IH as [| ? ? Ht Hr]. subst.
      constructor; [cbn; rewrite E; exact Ht | exact Hr].
Qed.

Lemma getlines_length (d : ascii) (s : string) :
  length (Str.getlines d s)
  = Txt.count d s
    + (if Txt.ends_with d s then 0 else if (s =? "")%string then 0 else 1).
Proof.
  induction s as [| c s IH]; [reflexivity |].
  cbn [Str.getlines Txt.count]. destruct (c =? d)%char eqn:E.
  - cbn [length]. rewrite IH. destruct s as [| y s].
    + rewrite ends_with_single, E. reflexivity.
    + rewrite (ends_with_cons d c (String y s)) by discriminate.
      destruct (Txt.ends_with d (String y s)); cbn; lia.
  - destruct (Str.getlines d s) as [| tok rest] eqn:G.
    + apply getlines_nil in G. subst s. rewrite ends_with_single, E. reflexivity.
    + assert (N : s <> "") by (intro Z; subst s; discriminate).
      rewrite (ends_with_cons d c s) by exact N.
      cbn [length] in *. rewrite IH.
      destruct s as [| y s]; [contradiction |].
      destruct (Txt.ends_with d (String y s)); cbn; lia.
Qed.

(** X9. The tokens that the [getline] loop reads from a text: no token holds
    the delimiter; written one after the other with the delimiter between
    them they give the text back, up to one delimiter at the very end of the
    text, which closes the last token and opens no new one.  So there are
    as many tokens as delimiters, and one more when the text is not empty
    and does not end with the delimiter. *)
Theorem tokens_round_trip (d : ascii) (s : string) :
  let toks := Str.getlines d s in
  s = (Txt.join d toks ++ (if Txt.ends_with d s then String d "" else ""))%string
  /\ Forall (fun tok => Txt.count d tok = 0) toks
  /\ length toks
     = Txt.count d s
       + (if Txt.ends_with d s then 0 else if (s =? "")%string then 0 else 1).
Proof.
  cbn zeta. split; [apply getlines_join |].
  split; [apply getlines_clean | apply getlines_length].
Qed.

Lemma getlines_token (d : ascii) (t : string) :
  Txt.count d t = 0 -> t <> "" -> Str.getlines d t = [t].
Proof.
  induction t as [| c t IH]; [contradiction |].
  cbn [Txt.count Str.getlines]. intros H _.
  destruct (c =? d)%char; [discriminate |]. cbn in H.
  destruct t as [| y t]; [reflexivity |].
  rewrite IH by (exact H || discriminate). reflexivity.
Qed.

Lemma getlines_app (d : ascii) (t rest : string) :
  Txt.count d t = 0 ->
  Str.getlines d (t ++ String d rest) = t :: Str.getlines d rest.
Proof.
  induction t as [| c t IH]; intro H.
  - cbn. rewrite Ascii.eqb_refl. reflexivity.
  - cbn [Txt.count] in H. cbn [append Str.getlines].
    destruct (c =? d)%char; [discriminate |].
    rewrite IH by exact H. reflexivity.
Qed.

(** X10. Fields written with the delimiter between them are read back as
    they were written, provided that no field holds the delimiter and the
    last field is not empty. *)
Theorem fields_read_back (d : ascii) (toks : list string) :
  Forall (fun tok => Txt.count d tok = 0) toks ->
  last toks "-" <> "" ->
  Str.getlines d (Txt.join d toks) = toks.
Proof.
  induction toks as [| t rest IH]; intros Hc Hl; [reflexivity |].
  inversion Hc as [| ? ? Ht Hr]. subst.
  destruct rest as [| t2 rest].
  - cbn [Txt.join]. apply getlines_token; assumption.
  - change (Txt.join d (t :: t2 :: rest))
      with (t ++ String d (Txt.join d (t2 :: rest)))%string.
    rewrite getlines_app by exact Ht. f_equal. apply IH; assumption.
Qed.

Lemma fields_read_back_witness :
  Str.getlines "," (Txt.join "," ["A1"; "Foe"; ""; "150"; "500"; "20"])
  = ["A1"; "Foe"; ""; "150"; "500"; "20"].
Proof.
  apply (fields_read_back "," ["A1"; "Foe"; ""; "150"; "500"; "20"]).
  - repeat constructor.
  - discriminate.
Defined.

Lemma getlines_snoc (d : ascii) (s : string) :
  Str.getlines d (s ++ String d "")
  = Str.getlines d s
    ++ (if Txt.ends_with d s || (s =? "")%string then [""] else []).
Proof.
  induction s as [| c s IH].
  - cbn. rewrite Ascii.eqb_refl. reflexivity.
  - cbn [append Str.getlines]. rewrite IH.
    destruct s as [| y s].
    + rewrite ends_with_single. cbn [Str.getlines Txt.ends_with Txt.back orb
                                       String.eqb app].
      destruct (c =? d)%char; reflexivity.
    + rewrite (ends_with_cons d c (String y s)) by discriminate.
      change (String c (String y s) =? "")%string with false.
      change (String y s =? "")%string with false.
      destruct (c =? d)%char; [reflexivity |].
      destruct (Str.getlines d (String y s)) as [| tok toks] eqn:G;
        [apply getlines_nil in G; discriminate | reflexivity].
Qed.

(** X11. A delimiter at the very end of a text adds no token, unless the
    text was empty or ended with a delimiter already, when it adds one empty
    token: of a row whose last field is empty, such as [A1,F,1,2,3,], the
    last field is not read. *)
Theorem trailing_delimiter (d : ascii) (s : string) :
  Str.getlines d (s ++ String d "")
  = Str.getlines d s
    ++ (if Txt.ends_with d s || (s =? "")%string then [""] else []).
Proof. apply getlines_snoc. Qed.

End TokenFacts.

(* ================================================================== *)
(** * The loader as a whole *)

Section LoaderFacts.

Local Open Scope nat_scope.

Variable stod : string -> option R.

Lemma fold_candidates (lines : list string) (st : Ingest) :
  fold_left (loop_body stod) lines st
  = fold_left (loop_body stod) (candidates lines) st.
Proof.
  revert st. induction lines as [| raw lines IH]; intro st; [reflexivity |].
  cbn [fold_left candidates filter]. fold (candidates lines).
  destruct (skipped raw) eqn:S; cbn [negb].
  - rewrite loop_body_skipped by exact S. apply IH.
  - cbn [fold_left]. apply IH.
Qed.

Lemma candidates_not_skipped (lines : list string) :
  Forall (fun raw => skipped raw = false) (candidates lines).
Proof.
  apply Forall_forall. intros raw H. apply filter_In in H.
  destruct H as [_ H]. apply negb_true_iff in H. exact H.
Qed.

(** The row handling files a line under the contacts or under the
    diagnostics. *)
Lemma parse_row_files_one (line : string) (cols : list string) (st : Ingest) :
  length (out (parse_row stod line cols st))
  + length (cerr (parse_row stod line cols st))
  = length (out st) + length (cerr st) + 1.
Proof.
  unfold parse_row. destruct (length cols <? 6).
  - cbn [out cerr]. rewrite length_app. cbn. lia.
  - destruct (parseIFF (nth 1 cols "")); cbn [out cerr]; rewrite length_app;
      cbn; lia.
Qed.

Lemma fold_data_step_files (lines : list string) (st : Ingest) :
  Forall (fun raw => skipped raw = false) lines ->
  length (out (fold_left (data_step stod) lines st))
  + length (cerr (fold_left (data_step stod) lines st))
  = length (out st) + length (cerr st) + length lines.
Proof.
  intro H. revert st. induction H as [| raw lines S _ IH]; intro st.
  - cbn. lia.
  - cbn [fold_left length]. rewrite IH. unfold data_step. rewrite S.
    rewrite parse_row_files_one. lia.
Qed.

(** X12. Blank lines and comment lines make no difference wherever they
    stand, also in front of the header: the loader gives the same contacts
    and the same diagnostics as on the input without them. *)
Theorem blank_and_comment_lines_ignored (lines : list string) :
  ingest_lines stod lines = ingest_lines stod (candidates lines).
Proof. apply fold_candidates. Qed.

(** X13. Every line that is neither blank nor a comment is accounted for
    once: it gives one contact or one diagnostic, except the first such
    line when the header check takes it for the header (6 or more columns
    and the look of a header), which gives neither. *)
Theorem every_line_accounted (lines : list string) :
  let st := ingest_lines stod lines in
  let header_taken :=
    match candidates lines with
    | raw :: _ => (6 <=? length (cols_of raw)) && looksHeader (cols_of raw)
    | [] => false
    end in
  length (out st) + length (cerr st) + (if header_taken then 1 else 0)
  = length (candidates lines).
Proof.
  cbn zeta. unfold ingest_lines. rewrite fold_candidates.
  pose proof (candidates_not_skipped lines) as H.
  destruct (candidates lines) as [| raw post]; [reflexivity |].
  inversion H as [| ? ? Hraw Hpost]. subst.
  pose proof (ingest_first_candidate stod [] post raw (Forall_nil _) Hraw) as E.
  unfold ingest_lines in E. cbn [app] in E. rewrite E.
  rewrite fold_data_step_files by exact Hpost.
  destruct ((6 <=? length (cols_of raw)) && looksHeader (cols_of raw)).
  - cbn. lia.
  - rewrite parse_row_files_one. cbn. lia.
Qed.

Lemma loop_body_trim (st : Ingest) (a b : string) :
  Str.trim a = Str.trim b -> loop_body stod st a = loop_body stod st b.
Proof. intro H. unfold loop_body. rewrite H. reflexivity. Qed.

Lemma fold_same_trim (l1 l2 : list string) (st : Ingest) :
  Forall2 (fun a b => Str.trim a = Str.trim b) l1 l2 ->
  fold_left (loop_body stod) l1 st = fold_left (loop_body stod) l2 st.
Proof.
  intro H. revert st. induction H as [| a b l1 l2 Hab _ IH]; intro st;
    [reflexivity |].
  cbn [fold_left]. rewrite (loop_body_trim st a b Hab). apply IH.
Qed.

(** X14. Blanks at either end of a line make no difference: the loader
    gives the same contacts and the same diagnostics when lines are padded
    with blanks.  In particular a carriage return at the end of every line
    (a file with CR LF line ends) changes nothing. *)
Theorem line_padding_ignored (lines padded : list string) :
  Forall2 (fun raw p => exists l r, Txt.blank l = true /\ Txt.blank r = true
                                    /\ p = (l ++ raw ++ r)%string)
          lines padded ->
  ingest_lines stod padded = ingest_lines stod lines
  /\ ingest_lines stod (map (fun raw => raw ++ String "013" "")%string lines)
     = ingest_lines stod lines.
Proof.
  intro H. split.
  - apply fold_same_trim. induction H as [| raw p l1 l2 (l & r & Hl & Hr & E) _ IH];
      constructor; [| exact IH].
    rewrite E. apply trim_padding; assumption.
  - apply fold_same_trim. clear H.
    induction lines as [| raw rest IH]; constructor; [| exact IH].
    apply (trim_padding "" raw (String "013" "")); reflexivity.
Qed.

(** X15. A newline after the last line of the file makes no difference. *)
Theorem final_newline_ignored (content : string) :
  ingest_lines stod (Str.getlines LF (content ++ String LF ""))
  = ingest_lines stod (Str.getlines LF content).
Proof.
  rewrite getlines_snoc.
  destruct (Txt.ends_with LF content || (content =? "")%string).
  - unfold ingest_lines. rewrite fold_left_app. cbn [fold_left].
    apply loop_body_skipped. reflexivity.
  - rewrite app_nil_r. reflexivity.
Qed.

End LoaderFacts.

Lemma line_padding_ignored_witness :
  ingest_lines StodDigits.stod
    ["  # radar"; String "009" "A1,Foe,10,150,500,20" ++ String "013" ""]%string
  = ingest_lines StodDigits.stod ["# radar"; "A1,Foe,10,150,500,20"].
Proof.
  apply (line_padding_ignored StodDigits.stod
           ["# radar"; "A1,Foe,10,150,500,20"]
           ["  # radar"; String "009" "A1,Foe,10,150,500,20" ++ String "013" ""]%string).
  constructor.
  - exists "  ", "". repeat split.
  - constructor; [| constructor].
    exists (String "009" ""), (String "013" ""). repeat split.
Defined.

(* ================================================================== *)
(** * Suggestions and the run as a whole *)

Lemma urgency_monotone (c c' : Contact) (s s' : R) :
  iff c = iff c' -> s <= s' ->
  range_km c' <= range_km c -> closing_mps c <= closing_mps c' ->
  (urgency (suggestion c s) <= urgency (suggestion c' s'))%nat.
Proof.
  intros Hi Hs Hr Hv. destruct (iff c) eqn:F.
  - unfold suggestion. rewrite F. apply Nat.le_0_l.
  - rewrite !suggestion_not_friend by congruence.
    destruct (Rgtb_spec s 120), (Rltb_spec (range_km c) 25),
      (Rgtb_spec (closing_mps c) 100), (Rgtb_spec s 80),
      (Rltb_spec (range_km c) 50),
      (Rgtb_spec s' 120), (Rltb_spec (range_km c') 25),
      (Rgtb_spec (closing_mps c') 100), (Rgtb_spec s' 80),
      (Rltb_spec (range_km c') 50); cbn; try lia; lra.
  - rewrite !suggestion_not_friend by congruence.
    destruct (Rgtb_spec s 120), (Rltb_spec (range_km c) 25),
      (Rgtb_spec (closing_mps c) 100), (Rgtb_spec s 80),
      (Rltb_spec (range_km c) 50),
      (Rgtb_spec s' 120), (Rltb_spec (range_km c') 25),
      (Rgtb_spec (closing_mps c') 100), (Rgtb_spec s' 80),
      (Rltb_spec (range_km c') 50); cbn; try lia; lra.
Qed.

(** X16. The suggestion never becomes less urgent (from IGNORE (FRIEND)
    over MONITOR and ELEVATED MONITOR to INTERCEPT) when the score grows,
    when the range shrinks, or when the closing speed grows, everything
    else unchanged. *)
Theorem suggestion_escalates (c : Contact) (s : R) :
  (forall s', s <= s' ->
     (urgency (suggestion c s) <= urgency (suggestion c s'))%nat)
  /\ (forall r', r' <= range_km c ->
     (urgency (suggestion c s) <= urgency (suggestion (with_range c r') s))%nat)
  /\ (forall v', closing_mps c <= v' ->
     (urgency (suggestion c s) <= urgency (suggestion (with_closing c v') s))%nat).
Proof.
  split; [| split]; intros x H; apply urgency_monotone; cbn; try reflexivity;
    lra.
Qed.

Section PipelineFacts.

Context {P : Platform} {HP : Conforming P}.

(** X17. Through scoring and suggestion together, under the default
    weights: a contact that is nearer, or closes faster, or is larger, or
    flies lower than another that is otherwise the same never gets the less
    urgent suggestion of the two. *)
Theorem nearer_or_faster_never_calmer (c : Contact) :
  let advice c := urgency (suggestion c (score c default_weights)) in
  (forall r1 r2, r1 <= r2 ->
     (advice (with_range c r2) <= advice (with_range c r1))%nat)
  /\ (forall v1 v2, v1 <= v2 ->
     (advice (with_closing c v1) <= advice (with_closing c v2))%nat)
  /\ (forall x1 x2, x1 <= x2 ->
     (advice (with_rcs c x1) <= advice (with_rcs c x2))%nat)
  /\ (forall a1 a2, a1 <= a2 ->
     (advice (with_altitude c a2) <= advice (with_altitude c a1))%nat).
Proof.
  intro advice. subst advice. cbn beta.
  destruct (terms_never_decrease c) as (Hr & Hv & Hx & Ha).
  split; [| split; [| split]]; intros x y H; apply urgency_monotone; cbn;
    try reflexivity; try lra.
  - apply (Hr x y H).
  - apply (Hv x y H).
  - apply (Hx x y H).
  - apply (Ha x y H).
Qed.

End PipelineFacts.



Section TableFacts.

Context {P : Platform}.
Variable stod : string -> option R.
Variable fs : string -> option string.


(** X19. A file that holds nothing but blank lines, comments and at most a
    header line loads nothing: the run prints no table, writes the single
    line "No contacts loaded from <path>" to standard error and exits with
    code 1. *)
Theorem nothing_but_header (argv : list string) (content : string) :
  fs (csvPath argv) = Some content ->
  match candidates (Str.getlines LF content) with
  | [] => True
  | [raw] => (6 <= length (cols_of raw))%nat /\ looksHeader (cols_of raw) = true
  | _ => False
  end ->
  main stod fs argv
  = mkRun 1 [] [("No contacts loaded from " ++ csvPath argv)%string].
Proof.
  intros Hfs H.
  assert (E : ingest_lines stod (Str.getlines LF content) = mkIngest [] false []
              \/ ingest_lines stod (Str.getlines LF content) = mkIngest [] true []).
  { unfold ingest_lines. rewrite fold_candidates.
    pose proof (candidates_not_skipped (Str.getlines LF content)) as S.
    destruct (candidates (Str.getlines LF content)) as [| raw [| ? ?]];
      [right; reflexivity | | contradiction].
    left. destruct H as [H6 Hh]. inversion S as [| ? ? Hraw _]. subst.
    pose proof (ingest_first_candidate stod [] [] raw (Forall_nil _) Hraw) as F.
    unfold ingest_lines in F. cbn [app] in F. rewrite F. cbn [fold_left].
    apply Nat.leb_le in H6. rewrite H6, Hh. reflexivity. }
  rewrite (main_no_contacts stod fs argv content Hfs);
    destruct E as [E | E]; rewrite E; reflexivity.
Qed.

End TableFacts.

Lemma suggestion_escalates_witness :
  (urgency (suggestion contact_B2 70) <= urgency (suggestion contact_B2 90))%nat.
Proof.
  exact (proj1 (suggestion_escalates contact_B2 70) 90 ltac:(lra)).
Defined.

Lemma nearer_or_faster_never_calmer_witness :
  (urgency (suggestion (with_range contact_B2 20)
              (score (P := exact) (with_range contact_B2 20)
                 (default_weights (P := exact))))
   <= urgency (suggestion (with_range contact_B2 5)
                 (score (P := exact) (with_range contact_B2 5)
                    (default_weights (P := exact)))))%nat.
Proof.
  exact (proj1 (nearer_or_faster_never_calmer (HP := exact_conforming) contact_B2)
               5 20 ltac:(lra)).
Defined.


Lemma nothing_but_header_witness :
  main (P := exact) StodDigits.stod
    (fun _ => Some ("# contacts of the day" ++ String LF
                    "id,iff,range_km,closing_mps,altitude_m,rcs_m2"
                    ++ String LF "")%string)
    ["sentinel"; "day.csv"]%string
  = mkRun 1 [] ["No contacts loaded from day.csv"%string].
Proof.
  apply (nothing_but_header (P := exact) StodDigits.stod _
           ["sentinel"; "day.csv"]%string
           ("# contacts of the day" ++ String LF
            "id,iff,range_km,closing_mps,altitude_m,rcs_m2"
            ++ String LF "")%string).
  - reflexivity.
  - vm_compute. split; [lia | reflexivity].
Defined.

(* ================================================================== *)
(** * Bounds and saturation of the score *)

Lemma Rlog10_pow (n : nat) : Rlog10 (10 ^ n) = INR n.
Proof.
  unfold Rlog10. rewrite ln_pow by lra. pose proof ln10_pos. field. lra.
Qed.

Lemma Rlog10_1e300 : Rlog10 1e300 = 300.
Proof.
  replace 1e300 with (10 ^ 300) by lra.
  rewrite Rlog10_pow, INR_IZR_INZ. reflexivity.
Qed.

Section ScoreBounds.

Context {P : Platform} {HP : Conforming P}.

(** What rounding can add to an upper bound. *)
Lemma rnd_upper (x hi : R) :
  x <= hi -> 1e-300 <= hi <= 1e300 -> rnd x <= hi * (1 + 1e-15).
Proof.
  intros H B. apply Rle_trans with (rnd hi); [apply rnd_monotone; exact H |].
  apply (rnd_between hi hi hi); lra.
Qed.

(** Two numbers that are 2 apart, in the range of the exact integers, round
    to different numbers: an integer and its successor lie between them. *)
Lemma rnd_gap (x y : R) :
  -1000000 <= x -> y <= 1000000 -> x + 2 <= y -> rnd x < rnd y.
Proof.
  intros Hx Hy H.
  destruct (archimed x) as [A1 A2].
  assert (B1 : (-1000000 <= up x)%Z).
  { apply le_IZR. lra. }
  assert (B2 : (up x <= 1000000)%Z).
  { apply le_IZR. lra. }
  assert (L : rnd x <= IZR (up x)).
  { apply rnd_le_integer; [lia | lra]. }
  assert (U : IZR (up x + 1) <= rnd y).
  { apply rnd_ge_integer; [lia |]. rewrite plus_IZR. lra. }
  rewrite plus_IZR in U. lra.
Qed.

Lemma lit_upper (x : R) : 1e-300 <= x <= 1e300 -> lit x <= x * (1 + 1e-15).
Proof. intro H. unfold lit. apply (rnd_between x x x); lra. Qed.

Lemma alt_term_upper (c : Contact) : alt_term c <= 100.
Proof.
  unfold alt_term.
  pose proof (clamp_bounds (altitude_m c) 0.0 20000.0 ltac:(lra)) as B.
  assert (D : (20000.0 [-] clamp (altitude_m c) 0.0 20000.0)%fl <= 20000).
  { unfold fsub. apply (rnd_le_integer _ 20000); [small_integer | lra]. }
  unfold fdiv. apply (rnd_le_integer _ 100); [small_integer | lra].
Qed.

Lemma s_alt_upper (c : Contact) : s_alt c default_weights <= 0.4000001.
Proof.
  unfold s_alt. cbn [w_alt_low default_weights].
  pose proof (alt_term_upper c) as A. pose proof (alt_term_nonneg c) as A0.
  pose proof (lit_upper 0.004 ltac:(lra)) as L.
  pose proof (lit_nonneg 0.004 ltac:(lra)) as L0.
  unfold fmul.
  pose proof (rnd_upper (lit 0.004 * alt_term c) 0.40000001) as U.
  assert (lit 0.004 * alt_term c <= 0.40000001) by nra.
  specialize (U ltac:(assumption) ltac:(lra)). lra.
Qed.

Lemma rcs_log_upper (c : Contact) (b : R) :
  rcs_m2 c <= b -> 1 <= b <= 1e300 -> rcs_log c <= Rlog10 b + 1e-12.
Proof.
  intros H B. unfold rcs_log.
  pose proof (rcs_arg_lower c) as L.
  assert (U : rcs_arg c <= b).
  { unfold rcs_arg, Std.max. destruct (Rltb_spec (lit 0.01) (rcs_m2 c)); [exact H |].
    apply Rle_trans with 1; [| lra].
    unfold lit. apply (rnd_le_integer _ 1); [small_integer | lra]. }
  apply Rle_trans with (std_log10 b);
    [apply log10_monotone; lra |].
  pose proof (log10_error b ltac:(lra)) as E. apply Rabs_le_inv in E. lra.
Qed.

Lemma s_rcs_upper (c : Contact) :
  rcs_m2 c <= 100 -> s_rcs c default_weights <= 40.000001.
Proof.
  intro H. pose proof (rcs_log_upper c 100 H ltac:(lra)) as U.
  rewrite Rlog10_hundred in U. pose proof (rcs_log_lower c) as L.
  unfold s_rcs. cbn [w_rcs default_weights]. unfold fadd, fmul.
  set (l := rcs_log c) in *.
  pose proof (rnd_upper (l + 2.0) 4.00000001 ltac:(lra) ltac:(lra)) as A.
  pose proof (rnd_nonneg (l + 2.0) ltac:(lra)) as A0.
  assert (M1 : rnd (l + 2.0) * 25.0 <= 100.0000004) by lra.
  pose proof (rnd_upper _ 100.0000004 M1 ltac:(lra)) as M.
  assert (M2 : 0 <= rnd (l + 2.0) * 25.0) by lra.
  pose proof (rnd_nonneg _ M2) as M0.
  pose proof (lit_upper 0.4 ltac:(lra)) as W.
  pose proof (lit_nonneg 0.4 ltac:(lra)) as W0.
  assert (X : lit 0.4 * rnd (rnd (l + 2.0) * 25.0) <= 40.0000003) by nra.
  pose proof (rnd_upper _ 40.0000003 X ltac:(lra)). lra.
Qed.

Lemma s_rcs_upper_wide (c : Contact) :
  rcs_m2 c <= 1e300 -> s_rcs c default_weights <= 7575.
Proof.
  intro H. pose proof (rcs_log_upper c 1e300 H ltac:(lra)) as U.
  rewrite Rlog10_1e300 in U. pose proof (rcs_log_lower c) as L.
  unfold s_rcs. cbn [w_rcs default_weights]. unfold fadd, fmul.
  set (l := rcs_log c) in *.
  assert (A : rnd (l + 2.0) <= 303)
    by (apply (rnd_le_integer _ 303); [small_integer | lra]).
  pose proof (rnd_nonneg (l + 2.0) ltac:(lra)) as A0.
  assert (M : rnd (rnd (l + 2.0) * 25.0) <= 7575)
    by (apply (rnd_le_integer _ 7575); [small_integer | lra]).
  assert (M2 : 0 <= rnd (l + 2.0) * 25.0) by lra.
  pose proof (rnd_nonneg _ M2) as M0.
  assert (W : lit 0.4 <= 1)
    by (unfold lit; apply (rnd_le_integer _ 1); [small_integer | lra]).
  pose proof (lit_nonneg 0.4 ltac:(lra)) as W0.
  apply (rnd_le_integer _ 7575); [small_integer | nra].
Qed.

(** The sum of the four physical terms, as [score] adds them up. *)
Lemma score_as_sum (c : Contact) (w : Weights) :
  score c w
  = ((s_range c w [+] s_closing c w [+] s_rcs c w [+] s_alt c w)
     [+] s_iff c w)%fl.
Proof. reflexivity. Qed.

Lemma s_range_upper (c : Contact) : s_range c default_weights <= 1200.
Proof.
  pose proof (inv_range_bounds c) as I.
  unfold s_range, fmul. cbn [w_range_inv default_weights].
  apply (rnd_le_integer _ 1200); [small_integer | lra].
Qed.

Lemma s_closing_upper (c : Contact) : s_closing c default_weights <= 25.
Proof.
  pose proof (closing_norm_bounds c) as N.
  unfold s_closing. cbn [w_closing default_weights].
  assert ((closing_norm c [*] 100.0)%fl <= 100)
    by (apply (rnd_le_integer _ 100); [small_integer | lra]).
  unfold fmul at 1. apply (rnd_le_integer _ 25); [small_integer | lra].
Qed.

(** The sum of the four physical terms, in the order [score] adds them. *)
Lemma physical_sum_bounds (c : Contact) :
  rcs_m2 c <= 1e300 ->
  0 <= (s_range c default_weights [+] s_closing c default_weights
        [+] s_rcs c default_weights [+] s_alt c default_weights)%fl
    <= 8801.
Proof.
  intro H.
  pose proof (s_range_nonneg c) as A0. pose proof (s_range_upper c) as A.
  pose proof (s_closing_nonneg c) as B0. pose proof (s_closing_upper c) as B.
  pose proof (s_rcs_nonneg c) as X0. pose proof (s_rcs_upper_wide c H) as X.
  pose proof (s_alt_nonneg c) as D0. pose proof (s_alt_upper c) as D.
  split; [repeat apply fadd_nonneg; assumption |].
  assert (S1 : (s_range c default_weights [+] s_closing c default_weights)%fl
               <= 1225)
    by (apply (rnd_le_integer _ 1225); [small_integer | lra]).
  assert (S2 : (s_range c default_weights [+] s_closing c default_weights
                [+] s_rcs c default_weights)%fl <= 8800)
    by (apply (rnd_le_integer _ 8800); [small_integer | lra]).
  apply (rnd_le_integer _ 8801); [small_integer | lra].
Qed.

(** An upper bound of the score from upper bounds of its range term and of
    its classification term, for a contact with an RCS of at most 100. *)
Lemma score_upper (c : Contact) (a e : R) :
  rcs_m2 c <= 100 ->
  s_range c default_weights <= a -> 1 <= a <= 1200 ->
  s_iff c default_weights <= e -> -40 <= e <= 30 ->
  score c default_weights <= a + e + 65.40001.
Proof.
  intros H A Ha E He.
  pose proof (s_closing_upper c) as B.
  pose proof (s_rcs_upper c H) as X.
  pose proof (s_alt_upper c) as D.
  unfold score, fadd.
  set (ra := s_range c default_weights) in *.
  set (rb := s_closing c default_weights) in *.
  set (rx := s_rcs c default_weights) in *.
  set (rd := s_alt c default_weights) in *.
  set (re := s_iff c default_weights) in *.
  assert (H1 : ra + rb <= a + 25) by lra.
  pose proof (rnd_upper _ _ H1 ltac:(lra)) as S1.
  assert (H2 : rnd (ra + rb) + rx <= (a + 25) * (1 + 1e-15) + 40.000001) by lra.
  pose proof (rnd_upper _ _ H2 ltac:(lra)) as S2.
  assert (H3 : rnd (rnd (ra + rb) + rx) + rd
               <= ((a + 25) * (1 + 1e-15) + 40.000001) * (1 + 1e-15) + 0.4000001)
    by lra.
  pose proof (rnd_upper _ _ H3 ltac:(lra)) as S3.
  assert (H4 : rnd (rnd (rnd (ra + rb) + rx) + rd) + re
               <= (((a + 25) * (1 + 1e-15) + 40.000001) * (1 + 1e-15) + 0.4000001)
                  * (1 + 1e-15) + e)
    by lra.
  pose proof (rnd_upper _ _ H4 ltac:(lra)) as S4.
  lra.
Qed.

(** The range term of a contact at least [/ k] away. *)
Lemma s_range_far (c : Contact) (k : R) :
  0.001 <= k <= 1 -> 1 <= range_km c -> / range_km c <= k ->
  s_range c default_weights <= 60 * k * (1 + 1e-14).
Proof.
  intros Hk Hr Hi.
  pose proof (lit_upper 0.05 ltac:(lra)) as L.
  destruct (inv_range_cases c) as [[_ E] | [F _]]; [| lra].
  unfold s_range. cbn [w_range_inv default_weights]. rewrite E.
  unfold fdiv, fmul.
  assert (Q : 1 / range_km c <= k) by lra.
  pose proof (rnd_upper _ _ Q ltac:(lra)) as I.
  assert (Q0 : 0 <= 1 / range_km c).
  { assert (0 < / range_km c) by (apply Rinv_0_lt_compat; lra). lra. }
  pose proof (rnd_nonneg _ Q0) as I0.
  assert (M : 60.0 * rnd (1 / range_km c) <= 60 * (k * (1 + 1e-15))) by lra.
  pose proof (rnd_upper _ _ M ltac:(lra)) as S. lra.
Qed.

End ScoreBounds.

(** The best score of a contact with an RCS of 100, in exact arithmetic. *)
Lemma exact_top_score :
  score (P := exact) (mkContact "T" Foe 0.05 400 0 100) exact_weights = 1295.4.
Proof.
  unfold_exact.
  rewrite (Rgtb_false 0.05 0.05) by lra.
  replace (400 / 400.0) with 1 by lra.
  rewrite (clamp_inside 1 0.0 1.0) by lra.
  rewrite (max_right 0.01 100) by lra.
  rewrite Rlog10_hundred.
  rewrite (clamp_inside 0 0.0 20000.0) by lra.
  lra.
Qed.

Section ScoreTheorems.

Context {P : Platform} {HP : Conforming P}.

(** X20. Inputs outside the range a term is made for are taken as the
    nearest end of the range, under the default weights: a range of 0.05 km
    or less, zero and negative ranges included, gives the capped range term
    1200; an altitude of 0 or less scores like altitude 0 and an altitude
    of 20000 m or more gives the altitude term 0; an RCS of 0.01 or less,
    zero and negative values included, scores like an RCS of 0.01. *)
Theorem inputs_saturate (c : Contact) :
  (range_km c <= 0.05 -> s_range c default_weights = 1200)
  /\ (altitude_m c <= 0 ->
      s_alt c default_weights = s_alt (with_altitude c 0) default_weights)
  /\ (20000 <= altitude_m c -> s_alt c default_weights = 0)
  /\ (rcs_m2 c <= 0.01 ->
      s_rcs c default_weights = s_rcs (with_rcs c 0.01) default_weights).
Proof.
  split; [| split; [| split]]; intro H.
  - pose proof lit_0_05_up as L.
    destruct (inv_range_cases c) as [[F _] | [_ E]]; [lra |].
    unfold s_range, fmul. cbn [w_range_inv default_weights]. rewrite E.
    replace (60.0 * 20) with 1200 by lra.
    apply (rnd_integer 1200). small_integer.
  - unfold s_alt, alt_term. cbn [altitude_m with_altitude].
    assert (E : clamp (altitude_m c) 0.0 20000.0 = clamp 0 0.0 20000.0)
      by (unfold clamp, Std.max, Std.min; cmp_cases; lra).
    rewrite E. reflexivity.
  - unfold s_alt, alt_term.
    assert (E : clamp (altitude_m c) 0.0 20000.0 = 20000.0)
      by (unfold clamp, Std.max, Std.min; cmp_cases; lra).
    rewrite E. unfold fsub, fdiv, fmul.
    replace (20000.0 - 20000.0) with 0 by lra. rewrite rnd_0.
    replace (0 / 200.0) with 0 by lra. rewrite rnd_0.
    rewrite Rmult_0_r. apply rnd_0.
  - pose proof lit_0_01_up as L.
    unfold s_rcs, rcs_log, rcs_arg. cbn [rcs_m2 with_rcs].
    assert (E : Std.max (lit 0.01) (rcs_m2 c) = Std.max (lit 0.01) 0.01)
      by (unfold Std.max; cmp_cases; lra).
    rewrite E. reflexivity.
Qed.

(** X21. Under the default weights the score of a contact with an RCS of at
    most 100 m^2 does not exceed 1295.41, on every platform that rounds as
    binary64 does; in exact arithmetic the Foe at range 0.05 km, closing at
    400 m/s at altitude 0 with an RCS of 100 scores 1295.4.  Of this, at most
    1200 comes from the range, 25 from the closing speed, 40.000001 from the
    RCS, 0.4000001 from the altitude and 30 from the classification. *)
Theorem score_upper_bound (c : Contact) :
  (rcs_m2 c <= 100 ->
   score c default_weights <= 1295.41
   /\ s_rcs c default_weights <= 40.000001)
  /\ s_range c default_weights <= 1200
  /\ s_closing c default_weights <= 25
  /\ s_alt c default_weights <= 0.4000001
  /\ s_iff c default_weights <= 30
  /\ score (P := exact) (mkContact "T" Foe 0.05 400 0 100) exact_weights
     = 1295.4.
Proof.
  assert (E : s_iff c default_weights <= 30)
    by (unfold s_iff; destruct (iff c); cbn; lra).
  split.
  { intro H. split; [| apply s_rcs_upper; exact H].
    pose proof (score_upper c 1200 30 H (s_range_upper c) ltac:(lra) E ltac:(lra)).
    lra. }
  split; [apply s_range_upper |]. split; [apply s_closing_upper |].
  split; [apply s_alt_upper |]. split; [exact E | exact exact_top_score].
Qed.

(** X22. The classification orders the scores of contacts that are
    otherwise the same, under the default weights: the Friend never scores
    above the Unknown, nor the Unknown above the Foe, and for an RCS of at
    most 1e300 the three scores differ.  In exact arithmetic the Unknown
    scores 55 more than the Friend, and the Foe 15 more than the Unknown. *)
Theorem classification_orders_scores (c : Contact) :
  let at_iff i := score (with_iff c i) default_weights in
  at_iff Friend <= at_iff Unknown <= at_iff Foe
  /\ (rcs_m2 c <= 1e300 -> at_iff Friend < at_iff Unknown < at_iff Foe)
  /\ score (P := exact) (with_iff c Unknown) exact_weights
     = score (P := exact) (with_iff c Friend) exact_weights + 55
  /\ score (P := exact) (with_iff c Foe) exact_weights
     = score (P := exact) (with_iff c Unknown) exact_weights + 15.
Proof.
  intro at_iff. subst at_iff. cbn beta.
  assert (S : forall i,
             score (with_iff c i) default_weights
             = rnd ((s_range c default_weights [+] s_closing c default_weights
                     [+] s_rcs c default_weights [+] s_alt c default_weights)%fl
                    + s_iff (with_iff c i) default_weights))
    by reflexivity.
  rewrite !S. cbn [s_iff with_iff iff default_weights w_iff_friend w_iff_unknown
                     w_iff_foe].
  set (t := (s_range c default_weights [+] s_closing c default_weights
             [+] s_rcs c default_weights [+] s_alt c default_weights)%fl).
  split; [split; apply rnd_monotone; lra |].
  split.
  { intro H. pose proof (physical_sum_bounds c H) as B. fold t in B.
    split; apply rnd_gap; lra. }
  split; unfold_exact; lra.
Qed.

(** X23. Under the default weights INTERCEPT is a short-range suggestion:
    a contact with an RCS of at most 100 m^2 for which it is suggested is
    no Friend, closes at more than 100 m/s and is less than 2.5 km away,
    and less than 1.6 km when its classification is Unknown. *)
Theorem intercept_needs_short_range (c : Contact) :
  rcs_m2 c <= 100 ->
  suggestion c (score c default_weights) = "INTERCEPT" ->
  iff c <> Friend /\ closing_mps c > 100
  /\ range_km c < 2.5 /\ (iff c = Unknown -> range_km c < 1.6).
Proof.
  intros H I.
  assert (F : iff c <> Friend).
  { intro F. unfold suggestion in I. rewrite F in I. discriminate. }
  rewrite suggestion_not_friend in I by exact F.
  destruct (Rgtb_spec (score c default_weights) 120) as [S |];
    [| cbn [andb] in I; destruct (_ && _); discriminate].
  destruct (Rltb_spec (range_km c) 25) as [R |];
    [| cbn [andb] in I; destruct (_ && _); discriminate].
  destruct (Rgtb_spec (closing_mps c) 100) as [V |];
    [| cbn [andb] in I; destruct (_ && _); discriminate].
  split; [exact F |]. split; [exact V |].
  assert (E : s_iff c default_weights <= 30)
    by (unfold s_iff; destruct (iff c); cbn; lra).
  split.
  - destruct (Rlt_le_dec (range_km c) 2.5) as [| Far]; [assumption | exfalso].
    assert (K : / range_km c <= 0.4).
    { replace 0.4 with (/ 2.5) by lra. apply Rinv_le_contravar; lra. }
    pose proof (s_range_far c 0.4 ltac:(lra) ltac:(lra) K) as A.
    assert (A' : s_range c default_weights <= 24.000001) by lra.
    pose proof (score_upper c 24.000001 30 H A' ltac:(lra) E ltac:(lra)). lra.
  - intro U.
    destruct (Rlt_le_dec (range_km c) 1.6) as [| Far]; [assumption | exfalso].
    assert (K : / range_km c <= 0.625).
    { replace 0.625 with (/ 1.6) by lra. apply Rinv_le_contravar; lra. }
    pose proof (s_range_far c 0.625 ltac:(lra) ltac:(lra) K) as A.
    assert (A' : s_range c default_weights <= 37.500001) by lra.
    assert (E' : s_iff c default_weights <= 15)
      by (unfold s_iff; rewrite U; cbn; lra).
    pose proof (score_upper c 37.500001 15 H A' ltac:(lra) E' ltac:(lra)). lra.
Qed.

End ScoreTheorems.

Lemma inputs_saturate_witness :
  s_range (P := exact) (with_range contact_B2 (-3)) exact_weights = 1200.
Proof.
  apply (inputs_saturate (HP := exact_conforming) (with_range contact_B2 (-3))).
  cbn. lra.
Defined.

Lemma score_upper_bound_witness :
  score (P := exact) contact_B2 exact_weights <= 1295.41.
Proof.
  apply (score_upper_bound (HP := exact_conforming) contact_B2). cbn. lra.
Defined.

Lemma classification_orders_scores_witness :
  score (P := exact) (with_iff contact_B2 Friend) exact_weights
  < score (P := exact) (with_iff contact_B2 Unknown) exact_weights.
Proof.
  apply (classification_orders_scores (HP := exact_conforming) contact_B2).
  cbn [rcs_m2 contact_B2]. lra.
Defined.

Lemma intercept_needs_short_range_witness :
  range_km (mkContact "T" Foe 0.05 400 0 100) < 2.5.
Proof.
  apply (intercept_needs_short_range (HP := exact_conforming)
           (mkContact "T" Foe 0.05 400 0 100)).
  - cbn. lra.
  - change (default_weights (P := exact)) with exact_weights.
    rewrite exact_top_score.
    rewrite suggestion_not_friend by (cbn; discriminate).
    cbn [range_km closing_mps].
    rewrite (Rgtb_true 1295.4 120), (Rltb_true 0.05 25), (Rgtb_true 400 100)
      by lra.
    reflexivity.
Defined.

(* ================================================================== *)
(** * Classification spellings and the layout of the table *)

(** X24. The parser reads the spellings the table prints: what [iffToStr]
    writes for a classification, [parseIFF] reads back as that
    classification, in upper case as printed and in lower case; different
    classifications are written differently. *)
Theorem classification_read_back (i : IFF) :
  parseIFF (iffToStr i) = Some i
  /\ parseIFF (Str.map Str.tolower (iffToStr i)) = Some i
  /\ (forall j, iffToStr i = iffToStr j -> i = j).
Proof.
  split; [destruct i; reflexivity |].
  split; [destruct i; reflexivity |].
  intros j H. destruct i, j; first [reflexivity | discriminate H].
Qed.

Section LayoutFacts.

Local Open Scope nat_scope.

Lemma length_fill (n : nat) (c : ascii) : String.length (Fmt.fill n c) = n.
Proof. induction n as [| n IH]; cbn; [reflexivity | now rewrite IH]. Qed.

Lemma length_setw (n : nat) (s : string) :
  String.length (Fmt.setw n s) = Nat.max n (String.length s).
Proof. unfold Fmt.setw. rewrite length_append, length_fill. lia. Qed.

Lemma length_chain (cells : list (nat * string)) :
  String.length (Fmt.chain cells) = Fmt.span cells.
Proof.
  unfold Fmt.span. induction cells as [| [n s] rest IH]; [reflexivity |].
  cbn [Fmt.chain List.map list_sum]. rewrite length_append, length_setw, IH.
  reflexivity.
Qed.

(** Where a cell of a chain stands, and that it stands there in full. *)
Lemma chain_cell (cells : list (nat * string)) (tail : string) (k n : nat)
    (s : string) :
  nth_error cells k = Some (n, s) ->
  substring (Fmt.span (firstn k cells)) (String.length s)
            (Fmt.chain cells ++ tail)
  = s.
Proof.
  revert k. induction cells as [| [n0 s0] rest IH]; intros k H.
  - destruct k; discriminate.
  - destruct k as [| k].
    + cbn in H. injection H as -> ->. cbn [firstn Fmt.chain].
      change (Fmt.span []) with 0. unfold Fmt.setw.
      rewrite !append_assoc. apply substring_all.
    + cbn [nth_error] in H. cbn [firstn Fmt.chain].
      change (Fmt.span ((n0, s0) :: firstn k rest))
        with (Nat.max n0 (String.length s0) + Fmt.span (firstn k rest)).
      rewrite <- (length_setw n0 s0), append_assoc, substring_skip.
      apply IH. exact H.
Qed.

Lemma chain_tail (cells : list (nat * string)) (tail : string) :
  substring (Fmt.span cells) (String.length tail) (Fmt.chain cells ++ tail)
  = tail.
Proof.
  rewrite <- length_chain.
  replace (String.length (Fmt.chain cells))
    with (String.length (Fmt.chain cells) + 0) by lia.
  rewrite substring_skip.
  pose proof (substring_all tail "") as H. rewrite append_nil_r in H. exact H.
Qed.

(** The cells in front of a position take their widths when each fits. *)
Lemma span_fitting (cells : list (nat * string)) :
  Forall (fun cell => String.length (snd cell) <= fst cell) cells ->
  Fmt.span cells = list_sum (List.map fst cells).
Proof.
  induction 1 as [| [n s] rest H _ IH]; [reflexivity |].
  change (Fmt.span ((n, s) :: rest)) with (Fmt.taken (n, s) + Fmt.span rest).
  rewrite IH. unfold Fmt.taken, list_sum. cbn [List.map fold_right fst snd] in *.
  lia.
Qed.

Lemma Forall_firstn {A : Type} (Q : A -> Prop) (l : list A) (j : nat) :
  Forall Q l -> Forall Q (firstn j l).
Proof.
  intro H. revert j. induction H as [| x l Hx _ IH]; intro j.
  - destruct j; constructor.
  - destruct j as [| j]; [constructor |]. cbn [firstn].
    constructor; [exact Hx | apply IH].
Qed.

Variable fixed : nat -> R -> string.

(** X25. A table row prints every field in full, one after the other: a
    field takes the width of its column, or its own length when that is
    larger (nothing is cut off), and the suggestion follows the last
    field.  So a field stands where the fields in front of it end. *)
Theorem row_fields_in_full (rank : Z) (c : Contact) (s : R) (sugg : string)
    (k n : nat) (field : string) :
  let cells := row_cells fixed rank c s in
  let row := row_text fixed rank c s sugg in
  nth_error cells k = Some (n, field) ->
  substring (Fmt.span (firstn k cells)) (String.length field) row = field
  /\ substring (Fmt.span cells) (String.length sugg) row = sugg
  /\ String.length row = Fmt.span cells + String.length sugg
  /\ Fmt.span cells >= 92.
Proof.
  intros cells row H. subst row. unfold row_text. fold cells.
  split; [apply (chain_cell cells sugg k n field H) |].
  split; [apply chain_tail |].
  split; [rewrite length_append, length_chain; reflexivity |].
  subst cells. unfold Fmt.span, row_cells, Fmt.taken, list_sum.
  cbn [List.map fold_right fst snd]. lia.
Qed.

(** X26. When every field of a row fits the width of its column, the fields
    stand under their titles: field and title begin at the same place, 0,
    10, 22, 32, 44, 58, 70 and 80 characters from the left, and the
    suggestion begins under SUGGESTION, 92 characters from the left.  The
    heading is 102 characters long and the rule under it 103. *)
Theorem fields_under_titles (rank : Z) (c : Contact) (s : R) (sugg : string)
    (k n : nat) (field : string) :
  let cells := row_cells fixed rank c s in
  let row := row_text fixed rank c s sugg in
  Forall (fun cell => String.length (snd cell) <= fst cell) cells ->
  nth_error cells k = Some (n, field) ->
  let start := nth k [0; 10; 22; 32; 44; 58; 70; 80] 0 in
  substring start (String.length field) row = field
  /\ substring start (String.length (snd (nth k heading_cells (0, ""))))
               heading_text
     = snd (nth k heading_cells (0, ""))
  /\ substring 92 (String.length sugg) row = sugg
  /\ substring 92 10 heading_text = "SUGGESTION"
  /\ String.length row = 92 + String.length sugg
  /\ String.length heading_text = 102
  /\ rule_text = Fmt.fill 103 "-".
Proof.
  intros cells row Hfit H start.
  assert (Hk : k < 8).
  { change 8 with (length cells). apply nth_error_Some. rewrite H. discriminate. }
  assert (Hspan : forall j, Fmt.span (firstn j cells)
                            = list_sum (List.map fst (firstn j cells))).
  { intro j. apply span_fitting, Forall_firstn. exact Hfit. }
  split.
  { pose proof (chain_cell cells sugg k n field H) as E.
    rewrite Hspan in E. subst row start. unfold row_text. fold cells.
    replace (nth k [0; 10; 22; 32; 44; 58; 70; 80] 0)
      with (list_sum (List.map fst (firstn k cells))); [exact E |].
    subst cells. unfold row_cells.
    do 8 (destruct k as [| k]; [reflexivity |]). lia. }
  split.
  { subst start. do 8 (destruct k as [| k]; [reflexivity |]). lia. }
  pose proof (span_fitting cells Hfit) as S.
  assert (S92 : Fmt.span cells = 92) by (rewrite S; reflexivity).
  split.
  { rewrite <- S92. apply chain_tail. }
  split; [reflexivity |].
  split.
  { subst row. unfold row_text. fold cells.
    rewrite length_append, length_chain, S92. reflexivity. }
  split; reflexivity.
Qed.

End LayoutFacts.

Lemma row_fields_in_full_witness :
  substring 10 2 (row_text (fun _ _ => "7.0") 1 contact_B2 7 "MONITOR") = "B2".
Proof.
  apply (row_fields_in_full (fun _ _ => "7.0") 1 contact_B2 7 "MONITOR" 1 12 "B2").
  reflexivity.
Defined.

Lemma fields_under_titles_witness :
  substring 22 3 (row_text (fun _ _ => "7.0") 1 contact_B2 7 "MONITOR") = "FOE"
  /\ substring 22 3 heading_text = "IFF".
Proof.
  pose proof (fields_under_titles (fun _ _ => "7.0") 1 contact_B2 7 "MONITOR"
                2 10 "FOE") as H.
  destruct H as (Hrow & Htitle & _).
  - repeat constructor.
  - reflexivity.
  - split; [exact Hrow | exact Htitle].
Defined.

(* ================================================================== *)
(** * Where contacts and diagnostics come from *)

Section ProvenanceFacts.

Variable stod : string -> option R.

(** What the row handling does to a line, by the kind of the line. *)
Lemma parse_row_kept (all : list string) (raw : string) (st : Ingest) :
  In raw all -> skipped raw = false ->
  Forall (from_row stod all) (out st) -> Forall (reported all) (cerr st) ->
  Forall (from_row stod all)
         (out (parse_row stod (Str.trim raw) (cols_of raw) st))
  /\ Forall (reported all)
            (cerr (parse_row stod (Str.trim raw) (cols_of raw) st)).
Proof.
  intros Hin S Ho He.
  destruct (Nat.lt_ge_cases (length (cols_of raw)) 6) as [Short | Long].
  - rewrite parse_row_short by exact Short. cbn [out cerr].
    split; [exact Ho |]. apply Forall_app. split; [exact He |].
    constructor; [| constructor]. exists raw. split; [exact Hin |].
    split; [exact S |]. left. split; [exact Short | reflexivity].
  - destruct (parseIFF (nth 1 (cols_of raw) "")) as [i |] eqn:E.
    + rewrite (parse_row_good stod _ _ _ i) by assumption. cbn [out cerr].
      split; [| exact He]. apply Forall_app. split; [exact Ho |].
      constructor; [| constructor]. exists raw, i.
      repeat split; assumption.
    + rewrite parse_row_bad_iff by assumption. cbn [out cerr].
      split; [exact Ho |]. apply Forall_app. split; [exact He |].
      constructor; [| constructor]. exists raw. split; [exact Hin |].
      split; [exact S |]. right. repeat split; assumption.
Qed.

Lemma loop_body_kept (all : list string) (raw : string) (st : Ingest) :
  In raw all ->
  Forall (from_row stod all) (out st) -> Forall (reported all) (cerr st) ->
  Forall (from_row stod all) (out (loop_body stod st raw))
  /\ Forall (reported all) (cerr (loop_body stod st raw)).
Proof.
  intros Hin Ho He. destruct (skipped raw) eqn:S.
  - rewrite loop_body_skipped by exact S. split; assumption.
  - rewrite loop_body_candidate by exact S.
    destruct (maybeHeader st).
    + destruct ((6 <=? length (cols_of raw))%nat && looksHeader (cols_of raw)).
      * split; assumption.
      * apply (parse_row_kept all raw (clear_header st)); assumption.
    + apply parse_row_kept; assumption.
Qed.

Lemma fold_kept (all lines : list string) (st : Ingest) :
  incl lines all ->
  Forall (from_row stod all) (out st) -> Forall (reported all) (cerr st) ->
  Forall (from_row stod all) (out (fold_left (loop_body stod) lines st))
  /\ Forall (reported all) (cerr (fold_left (loop_body stod) lines st)).
Proof.
  revert st. induction lines as [| raw lines IH]; intros st I Ho He.
  - split; assumption.
  - cbn [fold_left].
    destruct (loop_body_kept all raw st (I raw (or_introl eq_refl)) Ho He)
      as [Ho' He'].
    apply IH; [intros x Hx; apply I; right; exact Hx | exact Ho' | exact He'].
Qed.

(** X27. The loader makes nothing up.  Every contact it returns comes from a
    line of the input that is neither blank nor a comment, has 6 or more
    columns and a classification token; its fields are what the first six
    columns of that line give.  Every diagnostic names such a line, trimmed:
    one with fewer than 6 columns as malformed, one with 6 or more columns
    and no classification token as a row with invalid IFF. *)
Theorem nothing_made_up (lines : list string) :
  Forall (from_row stod lines) (out (ingest_lines stod lines))
  /\ Forall (reported lines) (cerr (ingest_lines stod lines)).
Proof.
  unfold ingest_lines. apply fold_kept.
  - apply incl_refl.
  - constructor.
  - constructor.
Qed.

End ProvenanceFacts.

Section OneFile.

Context {P : Platform}.
Variable stod : string -> option R.


End OneFile.
